(** * Structural scanning of the Instagram comment export

    A shallow embedding of the brace-depth scan of
    [analyze_comment_structure.py] and of the chunked pattern search of
    [find_comment_pattern.py], with the properties stated of the structural
    span scanner checked against them.

    Text is a list of characters.  Every offset is a Python integer, hence
    [Z]: [str.find] answers [-1] when there is nothing to find, and the
    brace depth is free to go below zero. *)

From Stdlib Require Import List Ascii String ZArith Bool Lia.
Import ListNotations.
Local Open Scope Z_scope.

(** ** Text *)

Definition text := list ascii.

Definition backslash : ascii := "092"%char.
Definition dquote : ascii := "034"%char.
Definition lbrace : ascii := "{"%char.
Definition rbrace : ascii := "}"%char.
Definition colon : ascii := ":"%char.
Definition apostrophe : ascii := "'"%char.

(** [lit] reads a literal as text.  [js] does the same and turns each
    apostrophe into a double quote, so that JSON samples stay readable. *)
Definition lit (s : string) : text := list_ascii_of_string s.

Definition js (s : string) : text :=
  map (fun c => if Ascii.eqb c apostrophe then dquote else c) (lit s).

(** [n] blanks. *)
Definition padding (n : nat) : text := repeat " "%char n.

(** [len(sample)] *)
Definition len (s : text) : Z := Z.of_nat (List.length s).

(** [sample.find(c)] for a one-character needle: the offset of its first
    occurrence, or [-1]. *)
Fixpoint find_from (c : ascii) (s : text) (i : Z) : Z :=
  match s with
  | [] => -1
  | x :: s' => if Ascii.eqb x c then i else find_from c s' (i + 1)
  end.

Definition find (s : text) (c : ascii) : Z := find_from c s 0.

(** [sample[a:b]] for offsets that are not negative (the scan never slices
    with a negative one): the characters at offsets [a <= k < b]. *)
Definition slice (s : text) (a b : Z) : text :=
  firstn (Z.to_nat (b - a)) (skipn (Z.to_nat a) s).

(** The character at offset [i], if there is one. *)
Definition char_at (s : text) (i : Z) : option ascii :=
  if i <? 0 then None else nth_error s (Z.to_nat i).

Module AnalyzeCommentStructure.

(** ** The scan state: the three variables set before the loop *)

Record ScanState := mkState {
  depth : Z;
  in_string : bool;
  escape_next : bool
}.

Definition set_depth (d : Z) (st : ScanState) : ScanState :=
  mkState d (in_string st) (escape_next st).
Definition set_in_string (b : bool) (st : ScanState) : ScanState :=
  mkState (depth st) b (escape_next st).
Definition set_escape_next (b : bool) (st : ScanState) : ScanState :=
  mkState (depth st) (in_string st) b.

(** A span: [sample[start:stop]], [start] included and [stop] excluded. *)
Definition span := (Z * Z)%type.

(** The threshold and the depth written into the match condition. *)
Definition min_close_offset : Z := 1000.
Definition target_depth : Z := 1.

(** ** One turn of the loop

    The state after the character [char] at offset [i], and the span of
    [obj_sample] when the turn ends in [break]. *)
Definition loop_body (sample : text) (st : ScanState) (i : Z) (char : ascii)
  : ScanState * option span :=
  if escape_next st then
    (set_escape_next false st, None)
  else if Ascii.eqb char backslash then
    (set_escape_next true st, None)
  else if Ascii.eqb char dquote && negb (escape_next st) then
    (set_in_string (negb (in_string st)) st, None)
  else if negb (in_string st) then
    if Ascii.eqb char lbrace then
      (set_depth (depth st + 1) st, None)
    else if Ascii.eqb char rbrace then
      let st' := set_depth (depth st - 1) st in
      if (depth st' =? target_depth) && (i >? min_close_offset) then
        let first_colon := find sample colon in
        if negb (first_colon =? -1) then
          (st', Some (first_colon + 1, i + 1))
        else (st', None)
      else (st', None)
    else (st, None)
  else (st, None).

(** [for i, char in enumerate(sample)], from offset [i] over what is left
    of the sample. *)
Fixpoint scan_loop (sample : text) (st : ScanState) (i : Z) (rest : text)
  : ScanState * option span :=
  match rest with
  | [] => (st, None)
  | char :: rest' =>
      match loop_body sample st i char with
      | (st', Some sp) => (st', Some sp)
      | (st', None) => scan_loop sample st' (i + 1) rest'
      end
  end.

(** The block as a whole: the three assignments, then the loop.  [g] is
    whatever the three variables held before. *)
Definition run_block (g : ScanState) (sample : text) : ScanState * option span :=
  let g := set_depth 0 g in
  let g := set_in_string false g in
  let g := set_escape_next false g in
  scan_loop sample g 0 sample.

Definition initial : ScanState := mkState 0 false false.

(** What the scan reports: [Some (start, stop)] when [obj_sample] is
    printed, [None] (not found) when the loop runs off the end. *)
Definition scan (sample : text) : option span :=
  snd (run_block initial sample).

Definition obj_sample (sample : text) (sp : span) : text :=
  slice sample (fst sp) (snd sp).

(** The script scans [f.read(10000)] and prints [obj_sample[:2000]]. *)
Definition sample_of_file (file : text) : text :=
  firstn (Z.to_nat 10000) file.

Definition printed (file : text) : option text :=
  let sample := sample_of_file file in
  option_map (fun sp => firstn (Z.to_nat 2000) (obj_sample sample sp))
    (scan sample).

(** ** The scan read as a run of a state machine *)

(** The state part of one turn; it depends neither on the offset nor on
    the rest of the sample. *)
Definition advance (st : ScanState) (char : ascii) : ScanState :=
  fst (loop_body [] st 0 char).

Definition run (st : ScanState) (s : text) : ScanState :=
  fold_left advance s st.

(** The state in which the character at offset [i] is met. *)
Definition state_before (s : text) (i : Z) : ScanState :=
  run initial (firstn (Z.to_nat i) s).

(** The state once the whole sample has been read. *)
Definition final_state (s : text) : ScanState := run initial s.

(** [char], met in state [st], is a closing brace outside every string
    that takes the depth to the target. *)
Definition closing (st : ScanState) (char : ascii) : bool :=
  negb (escape_next st) && negb (in_string st)
  && Ascii.eqb char rbrace && (depth st - 1 =? target_depth).

(** The same, said of the offset [i] of the sample [s]. *)
Definition closes_to_target (s : text) (i : Z) : Prop :=
  exists char, char_at s i = Some char /\ closing (state_before s i) char = true.

(** The offset of the first such brace beyond the threshold. *)
Fixpoint first_closing (st : ScanState) (i : Z) (rest : text) : option Z :=
  match rest with
  | [] => None
  | char :: rest' =>
      if closing st char && (i >? min_close_offset) then Some i
      else first_closing (advance st char) (i + 1) rest'
  end.

(** ** Balanced regions, as the contract of the scanner words them *)

(** The offset at which the depth first comes back to zero when [rest] is
    read from state [st] at offset [i]; [-1] when it never does. *)
Fixpoint first_return (st : ScanState) (i : Z) (rest : text) : Z :=
  match rest with
  | [] => -1
  | char :: rest' =>
      let st' := advance st char in
      if depth st' =? 0 then i else first_return st' (i + 1) rest'
  end.

(** [t] is exactly one balanced brace-delimited region: it opens with a
    brace, and that brace is closed by the last character of [t] and by
    none before it. *)
Definition balanced_region (t : text) : bool :=
  match t with
  | [] => false
  | char :: _ =>
      Ascii.eqb char lbrace && (first_return initial 0 t =? len t - 1)
  end.

(** No brace stands unescaped inside a quoted substring. *)
Fixpoint quoted_braces_free (st : ScanState) (s : text) : bool :=
  match s with
  | [] => true
  | char :: s' =>
      negb (in_string st && negb (escape_next st)
            && (Ascii.eqb char lbrace || Ascii.eqb char rbrace))
      && quoted_braces_free (advance st char) s'
  end.

(** A well-formed balanced input: an opening brace, a body, the closing
    brace, and no unescaped brace inside a quoted substring. *)
Definition well_formed_balanced (s : text) : bool :=
  balanced_region s && quoted_braces_free initial s.

(** ** Samples *)

(** An object whose second value is an object that closes beyond the
    threshold. *)
Definition two_values_sample : text :=
  js "{'a':1,'b':{" ++ padding 1000 ++ js "}}".

(** An object whose only value is an object that closes beyond the
    threshold. *)
Definition nested_sample : text :=
  js "{'a':{" ++ padding 1000 ++ js "}}".

(** [nested_sample] cut short: first before its last brace, then inside a
    string that is never closed. *)
Definition truncated_sample : text :=
  js "{'a':{" ++ padding 1000 ++ js "}".

Definition unterminated_sample : text :=
  js "{'a':{" ++ padding 1000 ++ js "},'b".

(** The short samples of the testable properties. *)
Definition escaped_quote_sample : text := js "{'a':'x\'y'}".
Definition brace_in_string_sample : text := js "{'a':'{not a brace}'}".
Definition unclosed_sample : text := js "{'a':1".
Definition stray_brace_sample : text := js "}{'a':1}".

End AnalyzeCommentStructure.

(** * Regular expressions, as much of [re] as the patterns use

    [re.findall(pattern, chunk)] is not empty exactly when some substring
    of [chunk] belongs to the language of [pattern]: groups, greedy and
    lazy repetition choose among the matches and do not make or unmake
    one.  [Matches] is that language, [Found] the existence of a matching
    substring, and [search] decides it with derivatives. *)

Module Re.

Inductive regex : Type :=
| Void : regex
| Eps : regex
| Class : (ascii -> bool) -> regex
| Seq : regex -> regex -> regex
| Alt : regex -> regex -> regex
| Star : regex -> regex.

Inductive Matches : regex -> text -> Prop :=
| MEps : Matches Eps []
| MClass p c : p c = true -> Matches (Class p) [c]
| MSeq r1 r2 s1 s2 :
    Matches r1 s1 -> Matches r2 s2 -> Matches (Seq r1 r2) (s1 ++ s2)
| MAltL r1 r2 s : Matches r1 s -> Matches (Alt r1 r2) s
| MAltR r1 r2 s : Matches r2 s -> Matches (Alt r1 r2) s
| MStarNil r : Matches (Star r) []
| MStarApp r s1 s2 :
    Matches r s1 -> Matches (Star r) s2 -> Matches (Star r) (s1 ++ s2).

(** Some substring of [s] matches [r]. *)
Definition Found (r : regex) (s : text) : Prop :=
  exists pre m post, s = pre ++ m ++ post /\ Matches r m.

Fixpoint nullable (r : regex) : bool :=
  match r with
  | Void => false
  | Eps => true
  | Class _ => false
  | Seq r1 r2 => nullable r1 && nullable r2
  | Alt r1 r2 => nullable r1 || nullable r2
  | Star _ => true
  end.

(** [Seq] and [Alt] that drop what cannot match. *)
Definition seq (r1 r2 : regex) : regex :=
  match r1, r2 with
  | Void, _ => Void
  | _, Void => Void
  | Eps, _ => r2
  | _, _ => Seq r1 r2
  end.

Definition alt (r1 r2 : regex) : regex :=
  match r1, r2 with
  | Void, _ => r2
  | _, Void => r1
  | _, _ => Alt r1 r2
  end.

(** What is left of [r] once the character [c] has been read. *)
Fixpoint deriv (c : ascii) (r : regex) : regex :=
  match r with
  | Void => Void
  | Eps => Void
  | Class p => if p c then Eps else Void
  | Seq r1 r2 =>
      if nullable r1 then alt (seq (deriv c r1) r2) (deriv c r2)
      else seq (deriv c r1) r2
  | Alt r1 r2 => alt (deriv c r1) (deriv c r2)
  | Star r1 => seq (deriv c r1) (Star r1)
  end.

(** Some prefix of [s] matches [q]. *)
Fixpoint accepts_prefix (q : regex) (s : text) : bool :=
  nullable q ||
  match s with
  | [] => false
  | c :: s' => accepts_prefix (deriv c q) s'
  end.

Definition any : regex := Class (fun _ => true).

Definition search (r : regex) (s : text) : bool :=
  accepts_prefix (Seq (Star any) r) s.

(** The pieces the patterns are written with: one character, any character
    but one, one or more, and a literal. *)
Definition chr (c : ascii) : regex := Class (Ascii.eqb c).
Definition none_of (c : ascii) : regex :=
  Class (fun x => negb (Ascii.eqb x c)).
Definition plus (r : regex) : regex := Seq r (Star r).
Fixpoint literal (s : text) : regex :=
  match s with
  | [] => Eps
  | c :: s' => Seq (chr c) (literal s')
  end.

End Re.

Import Re.

(** * The chunked search of [find_comment_pattern.py]

    [find_comments_carefully.py] reads and searches its files the same
    way, one chunk at a time, with a pattern that also allows blanks
    around the colons. *)

Module FindCommentPattern.

(** The pattern: a username field, anything but a closing brace, a text
    field; written here with apostrophes for the double quotes. *)
Definition pattern : regex :=
  Seq (literal (js "'username':'"))
 (Seq (plus (none_of dquote))
 (Seq (chr dquote)
 (Seq (Star (none_of rbrace))
 (Seq (literal (js "'text':'"))
 (Seq (plus (none_of dquote))
      (chr dquote)))))).

Definition chunk_size : nat := Z.to_nat 50000.

(** [f.read(n)]: the next [n] characters, fewer at the end of the file, and
    what is left to read. *)
Definition read (n : nat) (f : text) : text * text :=
  (firstn n f, skipn n f).

(** [while True]: read a chunk, stop on an empty one, search it, stop on a
    find.  [Some true] when the patterns are reported as found,
    [Some false] when the file ends first, [None] when [fuel] turns of the
    loop were not enough. *)
Fixpoint read_loop (fuel : nat) (n : nat) (f : text) : option bool :=
  match fuel with
  | O => None
  | S fuel' =>
      let (chunk, f') := read n f in
      match chunk with
      | [] => Some false
      | _ :: _ =>
          if search pattern chunk then Some true
          else read_loop fuel' n f'
      end
  end.

(** The search of a file read [n] characters at a time.  Each turn but the
    last reads at least one character, so one turn more than the file has
    characters is enough. *)
Definition search_file (n : nat) (content : text) : option bool :=
  read_loop (S (List.length content)) n content.

(** The [k]-th chunk read when chunks are [n] characters long. *)
Definition chunk (n k : nat) (f : text) : text :=
  firstn n (skipn (k * n) f).

(** A file of 50017 characters with one comment in it, the first 50000
    characters of which end inside the username key. *)
Definition comment : text := js "{'username':'a','text':'b'}".
Definition straddling_sample : text :=
  padding (Z.to_nat 49990) ++ comment.

End FindCommentPattern.

Import AnalyzeCommentStructure.
Import FindCommentPattern.

(** * More of the three scripts

    What follows models the parts of the scripts that stand around the
    scan and the chunked search: the context printed around a key, the
    matches [re.findall] returns and what is printed for them, and the
    loop of [find_comments_carefully.py]. *)

(** ** Substrings *)

(** [s.startswith(needle)] *)
Fixpoint starts_with (needle s : text) : bool :=
  match needle, s with
  | [], _ => true
  | _ :: _, [] => false
  | c :: needle', x :: s' => Ascii.eqb c x && starts_with needle' s'
  end.

(** [s.find(needle)]: the offset of the first occurrence of [needle] in
    [s], or [-1]. *)
Fixpoint find_sub_from (needle s : text) (i : Z) : Z :=
  if starts_with needle s then i
  else match s with
       | [] => -1
       | _ :: s' => find_sub_from needle s' (i + 1)
       end.

Definition find_sub (s needle : text) : Z := find_sub_from needle s 0.

(** [needle] stands in [s] at offset [p]. *)
Definition occurs_at (needle s : text) (p : Z) : Prop :=
  0 <= p <= len s /\ starts_with needle (skipn (Z.to_nat p) s) = true.

(** ** The context printed by [analyze_comment_structure.py]

    For each of the two keys: where the key is found in the sample, 300
    characters before it and 700 from it on. *)
Definition username_key : text := js "'username'".
Definition text_key : text := js "'text'".

Definition context_around (sample key : text) : option text :=
  let pos := find_sub sample key in
  if negb (pos =? -1) then
    let start := Z.max 0 (pos - 300) in
    let stop := Z.min (len sample) (pos + 700) in
    Some (slice sample start stop)
  else None.

(** A sample with the username key in it. *)
Definition keyed_sample : text := js "{'id':1,'username':'ann'}".

(** The inside of a string literal: characters that are neither a quote
    nor a backslash, and backslashes each followed by one character. *)
Inductive string_body : text -> Prop :=
| body_nil : string_body []
| body_plain c w :
    c <> dquote -> c <> backslash -> string_body w -> string_body (c :: w)
| body_escape c w : string_body w -> string_body (backslash :: c :: w).

(** The offsets of the closing braces that take the depth to the target,
    when [rest] is read from state [st] at offset [i]. *)
Fixpoint closings (st : ScanState) (i : Z) (rest : text) : list Z :=
  match rest with
  | [] => []
  | char :: rest' =>
      (if closing st char then [i] else [])
      ++ closings (advance st char) (i + 1) rest'
  end.

(** A sample whose only colon stands after the reported brace. *)
Definition late_colon_sample : text :=
  lit "{{" ++ padding 1000 ++ lit "}:".

(** ** [re.findall] for the two patterns

    The patterns are sequences of single characters, of character classes
    repeated greedily or lazily, and of groups of one or more characters of
    a class.  [bt] is the backtracking match of such a sequence, with the
    choices tried in the order of [re]: a greedy repetition longest first, a
    lazy one shortest first. *)

Module Findall.

(** The pieces of the two patterns: one character of a class, a class
    repeated greedily or lazily, and a group that holds one or more
    characters of a class. *)
Inductive atom : Type :=
| One : (ascii -> bool) -> atom
| Many : (ascii -> bool) -> atom
| Few : (ascii -> bool) -> atom
| Cap : (ascii -> bool) -> atom.

Definition pat := list atom.

Section Repeat.
Context {R : Type}.

(** Greedy repetition: take one more character of the class as long as the
    rest of the pattern then matches, and give back otherwise.  [k] is the
    rest of the pattern; it is given what was taken and what is left. *)
Fixpoint many (c : ascii -> bool) (k : text -> text -> option R)
  (taken s : text) : option R :=
  match s with
  | x :: s' =>
      if c x then
        match many c k (taken ++ [x]) s' with
        | Some r => Some r
        | None => k taken s
        end
      else k taken s
  | [] => k taken s
  end.

(** Lazy repetition: try the rest of the pattern first. *)
Fixpoint few (c : ascii -> bool) (k : text -> text -> option R)
  (taken s : text) : option R :=
  match k taken s with
  | Some r => Some r
  | None =>
      match s with
      | x :: s' => if c x then few c k (taken ++ [x]) s' else None
      | [] => None
      end
  end.

End Repeat.

(** The backtracking match of [p] at the head of [s]: what is left of [s]
    after the match, and the groups, last first. *)
Fixpoint bt (p : pat) (s : text) (groups : list text)
  : option (text * list text) :=
  match p with
  | [] => Some (s, groups)
  | One c :: p' =>
      match s with
      | x :: s' => if c x then bt p' s' groups else None
      | [] => None
      end
  | Many c :: p' => many c (fun _ rest => bt p' rest groups) [] s
  | Few c :: p' => few c (fun _ rest => bt p' rest groups) [] s
  | Cap c :: p' =>
      match s with
      | x :: s' =>
          if c x then many c (fun w rest => bt p' rest (w :: groups)) [x] s'
          else None
      | [] => None
      end
  end.

(** [re.findall] for a pattern that matches no empty string: the groups
    of the matches from left to right, none overlapping another.  [skip]
    characters are still covered by the last match. *)
Fixpoint findall_from (p : pat) (s : text) (skip : nat)
  : list (list text) :=
  match s with
  | [] => []
  | _ :: s' =>
      match skip with
      | S k => findall_from p s' k
      | O =>
          match bt p s [] with
          | Some (rest, groups) =>
              rev groups
              :: findall_from p s' (List.length s - List.length rest - 1)
          | None => findall_from p s' 0
          end
      end
  end.

Definition findall (p : pat) (s : text) : list (list text) :=
  findall_from p s 0.

(** The two groups of a match, as the scripts unpack them. *)
Definition as_pair (groups : list text) : text * text :=
  (nth 0 groups [], nth 1 groups []).

(** What it is for [m] to match [p] with the groups [gs]. *)
Inductive Parses : pat -> text -> list text -> Prop :=
| P_nil : Parses [] [] []
| P_one c x p m gs :
    c x = true -> Parses p m gs -> Parses (One c :: p) (x :: m) gs
| P_many c w p m gs :
    Forall (fun x => c x = true) w -> Parses p m gs ->
    Parses (Many c :: p) (w ++ m) gs
| P_few c w p m gs :
    Forall (fun x => c x = true) w -> Parses p m gs ->
    Parses (Few c :: p) (w ++ m) gs
| P_cap c w p m gs :
    w <> [] -> Forall (fun x => c x = true) w -> Parses p m gs ->
    Parses (Cap c :: p) (w ++ m) (w :: gs).

Definition lits (l : text) : pat := map (fun c => One (Ascii.eqb c)) l.
Definition not_char (c : ascii) : ascii -> bool :=
  fun x => negb (Ascii.eqb x c).

End Findall.
Import Findall.

(** ** What [find_comment_pattern.py] prints for a chunk with matches *)

(** The pattern of [find_comment_pattern.py] with its groups. *)
Definition pattern_atoms : pat :=
  lits (js "'username':'") ++ [Cap (not_char dquote); One (Ascii.eqb dquote);
  Many (not_char rbrace)] ++ lits (js "'text':'")
  ++ [Cap (not_char dquote); One (Ascii.eqb dquote)].

Definition quote_free (w : text) : Prop := Forall (fun x => x <> dquote) w.
Definition brace_free (w : text) : Prop := Forall (fun x => x <> rbrace) w.

(** A comment as the simple pattern sees it: the username key and value,
    anything without a closing brace, the text key and value. *)
Definition comment_shape (u mid t : text) : text :=
  js "'username':'" ++ u ++ [dquote] ++ mid ++ js "'text':'" ++ t ++ [dquote].

Definition is_comment (m u t : text) : Prop :=
  exists mid,
    m = comment_shape u mid t /\
    u <> [] /\ quote_free u /\ brace_free mid /\ t <> [] /\ quote_free t.

(** The first five matches, the text of each cut to 100 characters, and
    the context around the first occurrence of the first username: 500
    characters before it and 1000 from it on.  The labels and the dots the
    script always prints are left out. *)
Record report := mkReport {
  shown : list (text * text);
  raw_context : option text
}.

Definition report_chunk (chunk : text) : option report :=
  let matches := map as_pair (findall pattern_atoms chunk) in
  match matches with
  | [] => None
  | (username0, _) :: _ =>
      let first_match_pos := find_sub chunk username0 in
      Some (mkReport
        (map (fun m => (fst m, firstn 100 (snd m))) (firstn 5 matches))
        (if negb (first_match_pos =? -1) then
           let start := Z.max 0 (first_match_pos - 500) in
           let stop := Z.min (len chunk) (first_match_pos + 1000) in
           Some (slice chunk start stop)
         else None))
  end.

Fixpoint report_loop (fuel : nat) (n : nat) (f : text)
  : option (option report) :=
  match fuel with
  | O => None
  | S fuel' =>
      let (chunk, f') := read n f in
      match chunk with
      | [] => Some None
      | _ :: _ =>
          match report_chunk chunk with
          | Some r => Some (Some r)
          | None => report_loop fuel' n f'
          end
      end
  end.

Definition report_file (n : nat) (content : text) : option (option report) :=
  report_loop (S (List.length content)) n content.

(** What is printed for the one comment of [comment]. *)
Definition comment_report : report :=
  mkReport [(lit "a", lit "b")] (Some comment).

(** ** [find_comments_carefully.py]: the search of one file *)

Module FindCommentsCarefully.

(** White space as [\s] has it for the characters below 256. *)
Definition is_space (x : ascii) : bool :=
  let n := nat_of_ascii x in
  (((9 <=? n) && (n <=? 13)) || ((28 <=? n) && (n <=? 32))
   || (n =? 133) || (n =? 160))%nat.

(** The pattern, with blanks allowed around the colons and a lazy
    repetition between the two fields. *)
Definition flexible_pattern : pat :=
  lits (js "'username'")
  ++ [Many is_space; One (Ascii.eqb colon); Many is_space;
      One (Ascii.eqb dquote); Cap (not_char dquote); One (Ascii.eqb dquote);
      Few (not_char rbrace)]
  ++ lits (js "'text'")
  ++ [Many is_space; One (Ascii.eqb colon); Many is_space;
      One (Ascii.eqb dquote); Cap (not_char dquote); One (Ascii.eqb dquote)].

Definition chunk_size : nat := Z.to_nat 100000.

Record entry := mkEntry {
  number : nat;
  username : text;
  text_shown : text;
  context_line : option text
}.

(** [text[:200]] and three dots when the text is longer than 200. *)
Definition show_text (t : text) : text :=
  if len t >? 200 then firstn 200 t ++ lit "..." else t.

(** What is printed for one match: its number, the username, the text,
    and the 100 characters of the chunk that start 200 before the place
    where the username field is found again. *)
Definition entry_of (chunk : text) (found_count : nat) (m : text * text)
  : entry :=
  let (username, comment_text) := m in
  let username_pos :=
    find_sub chunk (js "'username':'" ++ username ++ [dquote]) in
  mkEntry found_count username (show_text comment_text)
    (if negb (username_pos =? -1) then
       let start := Z.max 0 (username_pos - 200) in
       Some (slice chunk start (start + 100))
     else None).

(** [for username, text in matches[:5]]: the count after the matches, and
    the entries printed. *)
Fixpoint report_matches (chunk : text) (found_count : nat)
  (matches : list (text * text)) : nat * list entry :=
  match matches with
  | [] => (found_count, [])
  | m :: matches' =>
      let found_count := S found_count in
      let (n, entries) := report_matches chunk found_count matches' in
      (n, entry_of chunk found_count m :: entries)
  end.

(** [while found_count < 5]: the entries printed for one file, [None] when
    [fuel] turns of the loop were not enough. *)
Fixpoint search_loop (fuel : nat) (n : nat) (f : text) (found_count : nat)
  : option (list entry) :=
  match fuel with
  | O => None
  | S fuel' =>
      if (found_count <? 5)%nat then
        let (chunk, f') := read n f in
        match chunk with
        | [] => Some []
        | _ :: _ =>
            let matches := map as_pair (findall flexible_pattern chunk) in
            let (found_count, entries) :=
              report_matches chunk found_count (firstn 5 matches) in
            if (5 <=? found_count)%nat then Some entries
            else option_map (app entries)
                   (search_loop fuel' n f' found_count)
        end
      else Some []
  end.

Definition search_file (n : nat) (content : text) : option (list entry) :=
  search_loop (S (List.length content)) n content 0.

(** A comment as the flexible pattern sees it: blanks are allowed on both
    sides of the two colons. *)
Definition blank (w : text) : Prop := Forall (fun x => is_space x = true) w.

Definition flexible_shape (w1 w2 u mid w3 w4 t : text) : text :=
  js "'username'" ++ w1 ++ [colon] ++ w2 ++ [dquote] ++ u ++ [dquote]
  ++ mid ++ js "'text'" ++ w3 ++ [colon] ++ w4 ++ [dquote] ++ t ++ [dquote].

Definition is_flexible_comment (m u t : text) : Prop :=
  exists w1 w2 mid w3 w4,
    m = flexible_shape w1 w2 u mid w3 w4 t /\
    blank w1 /\ blank w2 /\ blank w3 /\ blank w4 /\
    u <> [] /\ quote_free u /\ brace_free mid /\ t <> [] /\ quote_free t.

(** A comment with blanks around its colons, and a file of two chunks of
    170 characters with four such comments in the first and five in the
    second. *)
Definition spaced_comment : text := js "{'username' : 'ann', 'text': 'hi'}".

End FindCommentsCarefully.

(** * Properties of the scan *)

Section ScanFacts.

Lemma loop_body_eq (sample : text) (st : ScanState) (i : Z) (char : ascii) :
  loop_body sample st i char =
  (advance st char,
   if closing st char && (i >? min_close_offset)
      && negb (find sample colon =? -1)
   then Some (find sample colon + 1, i + 1) else None).
Proof.
  unfold advance, closing, loop_body.
  destruct st as [d b e]; cbn [escape_next in_string depth set_depth
    set_in_string set_escape_next fst].
  destruct e; [reflexivity|].
  destruct (Ascii.eqb_spec char backslash) as [->|Hb];
    [destruct b; reflexivity|].
  destruct (Ascii.eqb_spec char dquote) as [->|Hq];
    [destruct b; reflexivity|].
  destruct b; cbn [negb andb]; [reflexivity|].
  destruct (Ascii.eqb_spec char lbrace) as [->|Hl]; [reflexivity|].
  destruct (Ascii.eqb_spec char rbrace) as [->|Hr]; [|reflexivity].
  cbn [andb].
  destruct (d - 1 =? target_depth); cbn [andb]; [|reflexivity].
  destruct (i >? min_close_offset); cbn [andb]; [|reflexivity].
  destruct (find sample colon =? -1); reflexivity.
Qed.

Lemma scan_loop_first_closing (sample : text) (rest : text) :
  forall st i,
    snd (scan_loop sample st i rest) =
    if find sample colon =? -1 then None
    else option_map (fun k => (find sample colon + 1, k + 1))
           (first_closing st i rest).
Proof.
  induction rest as [|c rest IH]; intros st i; cbn [scan_loop first_closing].
  - destruct (find sample colon =? -1); reflexivity.
  - rewrite loop_body_eq.
    destruct (closing st c && (i >? min_close_offset)); cbn [andb].
    + destruct (find sample colon =? -1) eqn:E; cbn [negb].
      * apply IH.
      * reflexivity.
    + apply IH.
Qed.

(** *** Offsets and prefixes *)

Lemma len_nonneg (s : text) : 0 <= len s.
Proof. unfold len. lia. Qed.

Lemma len_snoc (s : text) (c : ascii) : len (s ++ [c]) = len s + 1.
Proof. unfold len. rewrite length_app. cbn [List.length]. lia. Qed.

Lemma snoc_app (pre : text) (c : ascii) (rest : text) :
  pre ++ c :: rest = (pre ++ [c]) ++ rest.
Proof. rewrite <- app_assoc. reflexivity. Qed.

Lemma run_app (st : ScanState) (a b : text) :
  run st (a ++ b) = run (run st a) b.
Proof. apply fold_left_app. Qed.

Lemma run_snoc (st : ScanState) (a : text) (c : ascii) :
  run st (a ++ [c]) = advance (run st a) c.
Proof. rewrite run_app. reflexivity. Qed.

Lemma firstn_prefix (pre rest : text) :
  firstn (List.length pre) (pre ++ rest) = pre.
Proof.
  induction pre as [|x pre IH]; cbn [List.length app firstn].
  - destruct rest; reflexivity.
  - now rewrite IH.
Qed.

Lemma state_before_prefix (pre rest : text) :
  state_before (pre ++ rest) (len pre) = run initial pre.
Proof.
  unfold state_before, len. now rewrite Nat2Z.id, firstn_prefix.
Qed.

Lemma char_at_prefix (pre : text) (c : ascii) (rest : text) :
  char_at (pre ++ c :: rest) (len pre) = Some c.
Proof.
  unfold char_at, len.
  destruct (Z.ltb_spec (Z.of_nat (List.length pre)) 0) as [H|_]; [lia|].
  rewrite Nat2Z.id, nth_error_app2 by lia.
  now rewrite Nat.sub_diag.
Qed.

Lemma char_at_range (s : text) (i : Z) (c : ascii) :
  char_at s i = Some c -> 0 <= i < len s.
Proof.
  unfold char_at, len. destruct (Z.ltb_spec i 0) as [|H0]; [discriminate|].
  intros H. assert (Hn : nth_error s (Z.to_nat i) <> None) by congruence.
  apply nth_error_Some in Hn. lia.
Qed.

Lemma closes_at_prefix (pre : text) (c : ascii) (rest : text) :
  closes_to_target (pre ++ c :: rest) (len pre) <->
  closing (run initial pre) c = true.
Proof.
  unfold closes_to_target. rewrite state_before_prefix, char_at_prefix.
  split.
  - intros (c' & Hc & H). now inversion Hc; subst.
  - intros H. now exists c.
Qed.

(** *** The first closing brace beyond the threshold *)

Lemma first_closing_Some (rest : text) :
  forall pre k,
    first_closing (run initial pre) (len pre) rest = Some k ->
    len pre <= k /\ min_close_offset < k /\
    closes_to_target (pre ++ rest) k /\
    forall j, len pre <= j -> closes_to_target (pre ++ rest) j ->
              min_close_offset < j -> k <= j.
Proof.
  induction rest as [|c rest IH]; intros pre k; cbn [first_closing].
  - discriminate.
  - destruct (closing (run initial pre) c && (len pre >? min_close_offset))
      eqn:E.
    + intros [= <-]. apply andb_prop in E as [Hc Hi].
      apply Z.gtb_lt in Hi.
      repeat split; try lia. now apply closes_at_prefix.
    + intros H. rewrite <- run_snoc, <- (len_snoc pre c) in H.
      apply IH in H as (Hk & Hm & Hcl & Hmin).
      rewrite len_snoc in Hk, Hmin. rewrite <- snoc_app in Hcl, Hmin.
      repeat split; try lia; [assumption|].
      intros j Hj Hcj Hmj.
      destruct (Z.eq_dec j (len pre)) as [->|Hne].
      * apply closes_at_prefix in Hcj. rewrite Hcj in E. cbn [andb] in E.
        apply Z.gtb_lt in Hmj. congruence.
      * apply Hmin; [lia|assumption|assumption].
Qed.

Lemma first_closing_None (rest : text) :
  forall pre,
    first_closing (run initial pre) (len pre) rest = None ->
    forall j, len pre <= j -> closes_to_target (pre ++ rest) j ->
              j <= min_close_offset.
Proof.
  induction rest as [|c rest IH]; intros pre; cbn [first_closing].
  - intros _ j Hj (c & Hc & _). apply char_at_range in Hc.
    rewrite app_nil_r in Hc. lia.
  - destruct (closing (run initial pre) c && (len pre >? min_close_offset))
      eqn:E; [discriminate|].
    intros H j Hj Hcj. rewrite <- run_snoc, <- (len_snoc pre c) in H.
    destruct (Z.eq_dec j (len pre)) as [->|Hne].
    + apply closes_at_prefix in Hcj. rewrite Hcj in E. cbn [andb] in E.
      destruct (Z.gtb_spec (len pre) min_close_offset); [discriminate|lia].
    + apply (IH _ H); [rewrite len_snoc; lia|].
      now rewrite <- snoc_app.
Qed.

(** *** What the scan reports *)

Lemma scan_eq (s : text) :
  scan s =
  if find s colon =? -1 then None
  else option_map (fun k => (find s colon + 1, k + 1))
         (first_closing initial 0 s).
Proof. unfold scan, run_block. apply scan_loop_first_closing. Qed.

Lemma scan_Some_iff (s : text) (a b : Z) :
  scan s = Some (a, b) <->
  find s colon <> -1 /\ a = find s colon + 1 /\
  min_close_offset < b - 1 /\ closes_to_target s (b - 1) /\
  forall j, closes_to_target s j -> min_close_offset < j -> b - 1 <= j.
Proof.
  rewrite scan_eq.
  destruct (Z.eqb_spec (find s colon) (-1)) as [Hf|Hf].
  { split; [discriminate|]. intros (H & _). contradiction. }
  destruct (first_closing initial 0 s) as [k|] eqn:E; cbn [option_map].
  - apply (first_closing_Some s []) in E as (Hk & Hm & Hcl & Hmin).
    cbn [app] in Hcl, Hmin. change (len []) with 0 in *.
    assert (Hk0 : forall j, closes_to_target s j -> 0 <= j).
    { intros j (c & Hc & _). apply char_at_range in Hc. lia. }
    split.
    + intros [= <- <-]. replace (k + 1 - 1) with k by lia.
      repeat split; auto.
    + intros (_ & -> & Hb & Hcb & Hminb).
      assert (b - 1 = k) as <-; [|f_equal; f_equal; lia].
      pose proof (Hmin _ (Hk0 _ Hcb) Hcb Hb).
      pose proof (Hminb _ Hcl Hm). lia.
  - split; [discriminate|].
    intros (_ & _ & Hb & Hcb & _).
    pose proof (first_closing_None s [] E (b - 1)) as H.
    cbn [app] in H. change (len []) with 0 in H.
    destruct Hcb as (c & Hc & Hcl). pose proof (char_at_range _ _ _ Hc).
    assert (b - 1 <= min_close_offset); [|lia].
    apply H; [lia|]. now exists c.
Qed.

Lemma scan_None_iff (s : text) :
  scan s = None <->
  find s colon = -1 \/
  forall j, closes_to_target s j -> j <= min_close_offset.
Proof.
  split.
  - intros H. destruct (Z.eq_dec (find s colon) (-1)) as [Hf|Hf]; [now left|].
    right. intros j Hj.
    destruct (Z_le_gt_dec j min_close_offset) as [|Hgt]; [assumption|].
    rewrite scan_eq in H.
    destruct (Z.eqb_spec (find s colon) (-1)); [contradiction|].
    destruct (first_closing initial 0 s) eqn:E; [discriminate|].
    pose proof (first_closing_None s [] E j) as H'.
    cbn [app] in H'. change (len []) with 0 in H'.
    destruct Hj as (c & Hc & Hcl). pose proof (char_at_range _ _ _ Hc).
    apply H'; [lia|]. now exists c.
  - intros H. destruct (scan s) as [[a b]|] eqn:E; [|reflexivity].
    apply scan_Some_iff in E as (Hf & _ & Hb & Hcb & _).
    destruct H as [H|H]; [contradiction|]. apply H in Hcb. lia.
Qed.

(** *** Closing braces and the states around them *)

Lemma closing_inv (st : ScanState) (c : ascii) :
  closing st c = true ->
  c = rbrace /\ escape_next st = false /\ in_string st = false /\
  depth st = target_depth + 1.
Proof.
  unfold closing. destruct st as [d b e]; cbn [escape_next in_string depth].
  intros H. repeat (apply andb_prop in H as [H ?]).
  destruct e, b; try discriminate.
  apply Ascii.eqb_eq in H1. apply Z.eqb_eq in H0. repeat split; auto; lia.
Qed.

Lemma advance_closing (st : ScanState) (c : ascii) :
  closing st c = true -> advance st c = mkState target_depth false false.
Proof.
  intros H. apply closing_inv in H as (-> & He & Hs & Hd).
  destruct st as [d b e]; cbn [escape_next in_string depth] in *; subst.
  reflexivity.
Qed.

Lemma state_before_succ (s : text) (i : Z) (c : ascii) :
  char_at s i = Some c ->
  state_before s (i + 1) = advance (state_before s i) c.
Proof.
  intros H. pose proof (char_at_range _ _ _ H) as Hr.
  unfold char_at in H. destruct (Z.ltb_spec i 0); [lia|].
  apply nth_error_split in H as (l1 & l2 & -> & Hl).
  assert (Hi : i = len l1) by (unfold len; lia). subst i.
  rewrite (state_before_prefix l1 (c :: l2)).
  rewrite <- (len_snoc l1 c), (snoc_app l1 c l2).
  rewrite (state_before_prefix (l1 ++ [c]) l2).
  apply run_snoc.
Qed.

Lemma closes_to_target_inv (s : text) (j : Z) :
  closes_to_target s j ->
  char_at s j = Some rbrace /\
  escape_next (state_before s j) = false /\
  in_string (state_before s j) = false /\
  depth (state_before s j) = target_depth + 1 /\
  state_before s (j + 1) = mkState target_depth false false.
Proof.
  intros (c & Hc & H). rewrite (state_before_succ _ _ _ Hc).
  rewrite (advance_closing _ _ H).
  apply closing_inv in H as (-> & He & Hs & Hd). auto.
Qed.

Lemma short_has_no_late_closing (s : text) :
  len s <= min_close_offset + 1 ->
  forall j, closes_to_target s j -> j <= min_close_offset.
Proof.
  intros H j (c & Hc & _). apply char_at_range in Hc. lia.
Qed.

(** When nothing is reported the loop has read the whole sample. *)
Lemma scan_loop_exhausts (sample : text) (rest : text) :
  forall st i,
    snd (scan_loop sample st i rest) = None ->
    fst (scan_loop sample st i rest) = run st rest.
Proof.
  induction rest as [|c rest IH]; intros st i; cbn [scan_loop run fold_left].
  - reflexivity.
  - rewrite loop_body_eq.
    destruct (closing st c && (i >? min_close_offset)
              && negb (find sample colon =? -1)).
    + discriminate.
    + apply IH.
Qed.

End ScanFacts.

(** * Properties of the states *)

Section StateFacts.

Lemma advance_eq (st : ScanState) (c : ascii) :
  advance st c =
  if escape_next st then set_escape_next false st
  else if Ascii.eqb c backslash then set_escape_next true st
  else if Ascii.eqb c dquote then set_in_string (negb (in_string st)) st
  else if in_string st then st
  else if Ascii.eqb c lbrace then set_depth (depth st + 1) st
  else if Ascii.eqb c rbrace then set_depth (depth st - 1) st
  else st.
Proof.
  unfold advance, loop_body. destruct st as [d b e].
  cbn [escape_next in_string depth].
  destruct e; [reflexivity|].
  destruct (Ascii.eqb c backslash); [reflexivity|].
  destruct (Ascii.eqb c dquote); [reflexivity|].
  destruct b; [reflexivity|].
  destruct (Ascii.eqb c lbrace); [reflexivity|].
  destruct (Ascii.eqb c rbrace); [|reflexivity].
  cbn. destruct (d - 1 =? target_depth); reflexivity.
Qed.

(** The depth only ever moves by steps that do not look at it. *)
Lemma advance_shift (k : Z) (st : ScanState) (c : ascii) :
  advance (set_depth (depth st + k) st) c =
  set_depth (depth (advance st c) + k) (advance st c).
Proof.
  rewrite !advance_eq. destruct st as [d b e].
  cbn [escape_next in_string depth set_depth].
  destruct e; [reflexivity|].
  destruct (Ascii.eqb c backslash); [reflexivity|].
  destruct (Ascii.eqb c dquote); [reflexivity|].
  destruct b; [reflexivity|].
  destruct (Ascii.eqb c lbrace);
    [unfold set_depth; cbn; f_equal; lia|].
  destruct (Ascii.eqb c rbrace); [|reflexivity].
  unfold set_depth; cbn; f_equal; lia.
Qed.

Lemma run_shift (k : Z) (s : text) :
  forall st,
    run (set_depth (depth st + k) st) s =
    set_depth (depth (run st s) + k) (run st s).
Proof.
  induction s as [|c s IH]; intros st; cbn [run fold_left].
  - reflexivity.
  - rewrite advance_shift. apply IH.
Qed.

Lemma find_from_range (c : ascii) (s : text) :
  forall i, find_from c s i = -1 \/ i <= find_from c s i.
Proof.
  induction s as [|x s IH]; intros i; cbn [find_from].
  - now left.
  - destruct (Ascii.eqb x c); [right; lia|].
    destruct (IH (i + 1)) as [H|H]; [now left|right; lia].
Qed.

Lemma first_return_depth (rest : text) :
  forall pre k,
    first_return (run initial pre) (len pre) rest = k -> k <> -1 ->
    len pre <= k /\ depth (state_before (pre ++ rest) (k + 1)) = 0.
Proof.
  induction rest as [|c rest IH]; intros pre k; cbn [first_return].
  - intros <-. contradiction.
  - destruct (Z.eqb_spec (depth (advance (run initial pre) c)) 0) as [E|E].
    + intros <- _. split; [lia|].
      rewrite <- (len_snoc pre c), snoc_app, state_before_prefix.
      now rewrite run_snoc.
    + rewrite <- run_snoc, <- (len_snoc pre c). intros H Hk.
      destruct (IH _ _ H Hk) as (Hle & Hd).
      rewrite len_snoc in Hle. rewrite snoc_app. split; [lia|assumption].
Qed.

Lemma balanced_region_final_depth (s : text) :
  balanced_region s = true -> depth (state_before s (len s)) = 0.
Proof.
  unfold balanced_region. destruct s as [|c s]; [discriminate|].
  intros H. apply andb_prop in H as [_ H]. apply Z.eqb_eq in H.
  pose proof (len_nonneg s).
  assert (Hl : len (c :: s) = len s + 1)
    by (unfold len; cbn [List.length]; lia).
  destruct (first_return_depth (c :: s) [] _ H) as (_ & Hd); [lia|].
  cbn [app] in Hd. now replace (len (c :: s) - 1 + 1) with (len (c :: s))
    in Hd by lia.
Qed.

End StateFacts.

Section StrayBrace.

Lemma state_before_after_stray (s : text) (j : Z) :
  0 <= j ->
  state_before (rbrace :: s) (j + 1) =
  set_depth (depth (state_before s j) - 1) (state_before s j).
Proof.
  intros Hj. unfold state_before.
  replace (Z.to_nat (j + 1)) with (S (Z.to_nat j)) by lia.
  cbn [firstn run fold_left].
  change (advance initial rbrace) with (set_depth (depth initial + -1) initial).
  fold (run (set_depth (depth initial + -1) initial) (firstn (Z.to_nat j) s)).
  rewrite run_shift. reflexivity.
Qed.

Lemma char_at_after_stray (s : text) (j : Z) :
  0 <= j -> char_at (rbrace :: s) (j + 1) = char_at s j.
Proof.
  intros Hj. unfold char_at.
  destruct (Z.ltb_spec (j + 1) 0); [lia|].
  destruct (Z.ltb_spec j 0); [lia|].
  replace (Z.to_nat (j + 1)) with (S (Z.to_nat j)) by lia. reflexivity.
Qed.

End StrayBrace.

(** * Properties of the pattern search *)

Section RegexFacts.

Lemma Matches_Void_inv (s : text) : ~ Matches Void s.
Proof. intros H. inversion H. Qed.

Lemma Matches_Eps_inv (s : text) : Matches Eps s -> s = [].
Proof. intros H. now inversion H. Qed.

Lemma Matches_Class_inv (p : ascii -> bool) (s : text) :
  Matches (Class p) s -> exists c, s = [c] /\ p c = true.
Proof. intros H. inversion H; subst. eauto. Qed.

Lemma Matches_Seq_inv (r1 r2 : regex) (s : text) :
  Matches (Seq r1 r2) s ->
  exists s1 s2, s = s1 ++ s2 /\ Matches r1 s1 /\ Matches r2 s2.
Proof. intros H. inversion H; subst. eauto. Qed.

Lemma Matches_Alt_inv (r1 r2 : regex) (s : text) :
  Matches (Alt r1 r2) s -> Matches r1 s \/ Matches r2 s.
Proof. intros H. inversion H; subst; auto. Qed.

Lemma nullable_spec (r : regex) : nullable r = true <-> Matches r [].
Proof.
  split.
  - induction r; cbn [nullable]; intros H; try discriminate.
    + constructor.
    + apply andb_prop in H as [H1 H2].
      exact (MSeq _ _ [] [] (IHr1 H1) (IHr2 H2)).
    + apply orb_prop in H as [H|H]; [apply MAltL|apply MAltR]; auto.
    + constructor.
  - intros H. remember [] as s eqn:Es.
    induction H; cbn [nullable]; try discriminate; try reflexivity.
    + apply app_eq_nil in Es as [-> ->].
      rewrite IHMatches1, IHMatches2; reflexivity.
    + rewrite IHMatches by assumption. reflexivity.
    + rewrite IHMatches by assumption. apply orb_true_r.
Qed.

Lemma seq_spec (r1 r2 : regex) (s : text) :
  Matches (seq r1 r2) s <-> Matches (Seq r1 r2) s.
Proof.
  assert (HV1 : forall r t, Matches (Seq Void r) t -> False).
  { intros r t H. apply Matches_Seq_inv in H as (? & ? & _ & H & _).
    now apply Matches_Void_inv in H. }
  assert (HV2 : forall r t, Matches (Seq r Void) t -> False).
  { intros r t H. apply Matches_Seq_inv in H as (? & ? & _ & _ & H).
    now apply Matches_Void_inv in H. }
  assert (HE : forall r t, Matches r t <-> Matches (Seq Eps r) t).
  { intros r t. split; intros H.
    - exact (MSeq Eps r [] t MEps H).
    - apply Matches_Seq_inv in H as (s1 & s2 & -> & H1 & H2).
      apply Matches_Eps_inv in H1 as ->. assumption. }
  destruct r1, r2; cbn [seq]; try reflexivity; try apply HE;
    (split; intros H; [now apply Matches_Void_inv in H | exfalso; eauto]).
Qed.

Lemma alt_spec (r1 r2 : regex) (s : text) :
  Matches (alt r1 r2) s <-> Matches (Alt r1 r2) s.
Proof.
  assert (HL : forall r t, Matches r t <-> Matches (Alt Void r) t).
  { intros r t. split; intros H; [now apply MAltR|].
    apply Matches_Alt_inv in H as [H|H]; [|assumption].
    now apply Matches_Void_inv in H. }
  assert (HR : forall r t, Matches r t <-> Matches (Alt r Void) t).
  { intros r t. split; intros H; [now apply MAltL|].
    apply Matches_Alt_inv in H as [H|H]; [assumption|].
    now apply Matches_Void_inv in H. }
  destruct r1, r2; cbn [alt]; try reflexivity; try apply HL; try apply HR.
Qed.

Lemma star_cons (r : regex) (c : ascii) (s : text) :
  Matches (Star r) (c :: s) ->
  exists s1 s2, s = s1 ++ s2 /\ Matches r (c :: s1) /\ Matches (Star r) s2.
Proof.
  intros H. remember (Star r) as q eqn:Eq. remember (c :: s) as t eqn:Et.
  induction H; try discriminate.
  injection Eq as ->.
  destruct s1 as [|x s1]; cbn [app] in Et.
  - apply IHMatches2; auto.
  - injection Et as -> <-. exists s1, s2. auto.
Qed.

Lemma seq_cons (r1 r2 : regex) (c : ascii) (s : text) :
  Matches (Seq r1 r2) (c :: s) <->
  (exists s1 s2, s = s1 ++ s2 /\ Matches r1 (c :: s1) /\ Matches r2 s2)
  \/ (Matches r1 [] /\ Matches r2 (c :: s)).
Proof.
  split.
  - intros H. apply Matches_Seq_inv in H as (s1 & s2 & E & H1 & H2).
    destruct s1 as [|x s1]; cbn [app] in E.
    + subst. now right.
    + injection E as <- ->. left. eauto.
  - intros [(s1 & s2 & -> & H1 & H2)|[H1 H2]].
    + exact (MSeq r1 r2 (c :: s1) s2 H1 H2).
    + exact (MSeq r1 r2 [] (c :: s) H1 H2).
Qed.

Lemma deriv_spec (r : regex) :
  forall c s, Matches (deriv c r) s <-> Matches r (c :: s).
Proof.
  induction r as [| |p|r1 IH1 r2 IH2|r1 IH1 r2 IH2|r IH]; intros c s;
    cbn [deriv].
  - split; intros H; inversion H.
  - split; intros H; inversion H.
  - destruct (p c) eqn:E; split; intros H.
    + apply Matches_Eps_inv in H as ->. now constructor.
    + apply Matches_Class_inv in H as (x & [= <- ->] & _). constructor.
    + now apply Matches_Void_inv in H.
    + apply Matches_Class_inv in H as (x & [= <- ->] & H). congruence.
  - assert (Hhead : Matches (seq (deriv c r1) r2) s <->
                    exists s1 s2, s = s1 ++ s2 /\ Matches r1 (c :: s1)
                                  /\ Matches r2 s2).
    { rewrite seq_spec. split.
      - intros H. apply Matches_Seq_inv in H as (s1 & s2 & -> & H1 & H2).
        apply IH1 in H1. eauto.
      - intros (s1 & s2 & -> & H1 & H2). apply IH1 in H1.
        now constructor. }
    rewrite seq_cons.
    destruct (nullable r1) eqn:N.
    + rewrite alt_spec. apply nullable_spec in N. split.
      * intros H. apply Matches_Alt_inv in H as [H|H];
          [left; now apply Hhead|].
        right. split; [assumption|now apply IH2].
      * intros [H|[_ H]]; [apply MAltL; now apply Hhead|].
        apply MAltR. now apply IH2.
    + rewrite Hhead. split; [now left|].
      intros [H|[H _]]; [assumption|].
      apply nullable_spec in H. congruence.
  - rewrite alt_spec. split; intros H.
    + apply Matches_Alt_inv in H as [H|H];
        [apply MAltL; now apply IH1|apply MAltR; now apply IH2].
    + apply Matches_Alt_inv in H as [H|H];
        [apply MAltL; now apply IH1|apply MAltR; now apply IH2].
  - rewrite seq_spec. split.
    + intros H. apply Matches_Seq_inv in H as (s1 & s2 & -> & H1 & H2).
      apply IH in H1. exact (MStarApp r (c :: s1) s2 H1 H2).
    + intros H. apply star_cons in H as (s1 & s2 & -> & H1 & H2).
      apply IH in H1. now constructor.
Qed.

Lemma accepts_prefix_spec (s : text) :
  forall q, accepts_prefix q s = true <->
            exists p post, s = p ++ post /\ Matches q p.
Proof.
  induction s as [|c s IH]; intros q; cbn [accepts_prefix].
  - rewrite orb_false_r, nullable_spec. split.
    + intros H. now exists [], [].
    + intros (p & post & E & H). symmetry in E.
      apply app_eq_nil in E as [-> _]. assumption.
  - rewrite orb_true_iff, nullable_spec, IH. split.
    + intros [H|(p & post & -> & H)].
      * now exists [], (c :: s).
      * apply deriv_spec in H. now exists (c :: p), post.
    + intros (p & post & E & H). destruct p as [|x p]; [now left|].
      cbn [app] in E. injection E as <- ->. right.
      exists p, post. split; [reflexivity|now apply deriv_spec].
Qed.

Lemma star_any (s : text) : Matches (Star any) s.
Proof.
  induction s as [|c s IH]; [constructor|].
  exact (MStarApp any [c] s (MClass _ c eq_refl) IH).
Qed.

Lemma search_spec (r : regex) (s : text) :
  search r s = true <-> Found r s.
Proof.
  unfold search, Found. rewrite accepts_prefix_spec. split.
  - intros (p & post & -> & H).
    apply Matches_Seq_inv in H as (s1 & s2 & -> & _ & H2).
    exists s1, s2, post. now rewrite <- app_assoc.
  - intros (pre & m & post & -> & H). exists (pre ++ m), post.
    split; [now rewrite app_assoc|].
    constructor; [apply star_any|assumption].
Qed.

Lemma Found_inside (r : regex) (a m b : text) :
  Found r m -> Found r (a ++ m ++ b).
Proof.
  intros (pre & x & post & -> & H).
  exists (a ++ pre), x, (post ++ b). split; [|assumption].
  now rewrite <- !app_assoc.
Qed.

End RegexFacts.

Section ChunkFacts.

Lemma chunk_zero (n : nat) (f : text) : chunk n 0 f = firstn n f.
Proof. reflexivity. Qed.

Lemma chunk_succ (n k : nat) (f : text) :
  chunk n (S k) f = chunk n k (skipn n f).
Proof.
  unfold chunk. rewrite skipn_skipn. f_equal. f_equal. cbn [Nat.mul]. lia.
Qed.

Lemma chunk_nil (n : nat) (f : text) :
  firstn n f = [] -> forall k, chunk n k f = [].
Proof.
  intros H k. unfold chunk. destruct n as [|n]; [reflexivity|].
  destruct f as [|x f]; [|discriminate].
  now rewrite skipn_nil.
Qed.

Lemma chunk_inside (n k : nat) (f : text) :
  exists a b, f = a ++ chunk n k f ++ b.
Proof.
  exists (firstn (k * n) f), (skipn n (skipn (k * n) f)).
  unfold chunk. now rewrite !firstn_skipn.
Qed.

Lemma chunk_whole (f : text) : chunk (List.length f) 0 f = f.
Proof. rewrite chunk_zero. apply firstn_all. Qed.

Lemma chunk_index (n k : nat) (f : text) :
  chunk n k f <> [] -> (k < List.length f)%nat.
Proof.
  unfold chunk. intros H.
  destruct n as [|n]; [now contradiction H|].
  destruct (Nat.lt_ge_cases (k * S n) (List.length f)) as [Hl|Hl]; [nia|].
  rewrite skipn_all2 in H by assumption. now destruct H.
Qed.

Lemma read_loop_true (n : nat) (fuel : nat) :
  forall f,
    read_loop fuel n f = Some true <->
    exists k, (k < fuel)%nat /\ search pattern (chunk n k f) = true.
Proof.
  induction fuel as [|fuel IH]; intros f; cbn [read_loop read].
  - split; [discriminate|]. intros (k & Hk & _). lia.
  - destruct (firstn n f) as [|x c] eqn:E.
    + split; [discriminate|]. intros (k & _ & H).
      rewrite (chunk_nil _ _ E) in H. discriminate.
    + destruct (search pattern (x :: c)) eqn:S0.
      * split; [|reflexivity]. intros _. exists 0%nat.
        rewrite chunk_zero, E. split; [lia|assumption].
      * rewrite IH. split.
        -- intros (k & Hk & H). exists (S k). rewrite chunk_succ.
           split; [lia|assumption].
        -- intros (k & Hk & H). destruct k as [|k].
           ++ rewrite chunk_zero, E in H. congruence.
           ++ exists k. rewrite chunk_succ in H. split; [lia|assumption].
Qed.

Lemma read_loop_returns (n : nat) (fuel : nat) :
  forall f, (List.length f < fuel)%nat ->
            exists found, read_loop fuel n f = Some found.
Proof.
  induction fuel as [|fuel IH]; intros f Hf; [lia|].
  cbn [read_loop read].
  destruct (firstn n f) as [|x c] eqn:E; [now exists false|].
  destruct (search pattern (x :: c)); [now exists true|].
  apply IH. rewrite length_skipn.
  destruct n as [|n]; [discriminate|]. destruct f; [discriminate|].
  cbn [List.length] in *. lia.
Qed.

Lemma search_file_true (n : nat) (content : text) :
  search_file n content = Some true <->
  exists k, Found pattern (chunk n k content).
Proof.
  unfold search_file. rewrite read_loop_true. split.
  - intros (k & _ & H). exists k. now apply search_spec.
  - intros (k & H). apply search_spec in H. exists k. split; [|assumption].
    assert (chunk n k content <> []) as Hne.
    { intros E. rewrite E in H. discriminate. }
    apply chunk_index in Hne. lia.
Qed.

Lemma search_whole_true (content : text) :
  search_file (List.length content) content = Some true <->
  Found pattern content.
Proof.
  rewrite search_file_true. split.
  - intros (k & H). destruct (chunk_inside (List.length content) k content)
      as (a & b & E). rewrite E. now apply Found_inside.
  - intros H. exists 0%nat. now rewrite chunk_whole.
Qed.

End ChunkFacts.

(** * The samples, character by character *)

Example escaped_quote_sample_text :
  escaped_quote_sample =
  [lbrace; dquote; "a"; dquote; colon; dquote; "x"; backslash; dquote; "y";
   dquote; rbrace]%char.
Proof. reflexivity. Qed.

Example stray_brace_sample_text :
  stray_brace_sample =
  [rbrace; lbrace; dquote; "a"; dquote; colon; "1"; rbrace]%char.
Proof. reflexivity. Qed.

Example two_values_sample_text :
  two_values_sample =
  [lbrace; dquote; "a"; dquote; colon; "1"; ","; dquote; "b"; dquote; colon;
   lbrace]%char ++ padding 1000 ++ [rbrace; rbrace].
Proof. reflexivity. Qed.

Example straddling_sample_chunks :
  len (chunk chunk_size 0 straddling_sample) = 50000 /\
  skipn (Z.to_nat 49990) (chunk chunk_size 0 straddling_sample) =
    js "{'username" /\
  chunk chunk_size 1 straddling_sample = js "':'a','text':'b'}" /\
  chunk chunk_size 2 straddling_sample = [].
Proof. vm_compute. repeat split. Qed.

(** * The properties of the specification, one by one *)

(** C1, counterexample.  On [two_values_sample] the scan succeeds, and the
    substring it reports runs from the number that is the first value up to
    the closing brace of the second value: it does not open with a brace
    and is not one balanced region. *)
Lemma span_not_one_balanced_region :
  scan two_values_sample = Some (5, 1013) /\
  firstn 7 (obj_sample two_values_sample (5, 1013)) = js "1,'b':{" /\
  balanced_region (obj_sample two_values_sample (5, 1013)) = false.
Proof. vm_compute. repeat split. Qed.

(** C1, amended.  The scan reports the span [(a, b)] exactly when the
    sample has a colon, [a] is one past the first colon, and [b] is one
    past the first offset beyond 1000 that closes to the target; it reports
    not found exactly when the sample has no colon or no offset beyond 1000
    closes to the target.  An offset closes to the target exactly when the
    character there is a closing brace, it is not skipped after a
    backslash, it stands outside every string, and the depth is 2 before it
    and 1 after it.  A reported span stops within the sample. *)
Theorem scan_span_characterised (s : text) :
  (forall j,
     closes_to_target s j <->
     char_at s j = Some rbrace /\
     escape_next (state_before s j) = false /\
     in_string (state_before s j) = false /\
     depth (state_before s j) = 2 /\
     depth (state_before s (j + 1)) = 1) /\
  (forall a b,
     scan s = Some (a, b) <->
     find s colon <> -1 /\ a = find s colon + 1 /\
     1000 < b - 1 /\ closes_to_target s (b - 1) /\
     forall j, closes_to_target s j -> 1000 < j -> b - 1 <= j) /\
  (scan s = None <->
   find s colon = -1 \/ forall j, closes_to_target s j -> j <= 1000) /\
  (forall a b, scan s = Some (a, b) -> 1001 < b <= len s).
Proof.
  split; [|split; [|split]].
  - intros j. split.
    + intros H. apply closes_to_target_inv in H as (Hc & He & Hs & Hd & Hst).
      rewrite Hst. repeat split; assumption.
    + intros (Hc & He & Hs & Hd & _). exists rbrace. split; [assumption|].
      unfold closing. rewrite He, Hs, Hd. reflexivity.
  - intros a b. apply scan_Some_iff.
  - apply scan_None_iff.
  - intros a b H. apply scan_Some_iff in H as (_ & _ & Hb & Hcl & _).
    apply closes_to_target_inv in Hcl as (Hc & _).
    apply char_at_range in Hc. unfold min_close_offset in Hb. lia.
Qed.

(** C2, counterexample.  [nested_sample] is a well-formed balanced object
    of 1008 characters; the span reported for it runs from offset 5 to
    offset 1007, the inner object, and not from 0 to 1008.  For the empty
    object nothing is reported at all. *)
Lemma balanced_input_not_spanned_whole :
  well_formed_balanced nested_sample = true /\
  len nested_sample = 1008 /\
  scan nested_sample = Some (5, 1007) /\
  well_formed_balanced (lit "{}") = true /\
  scan (lit "{}") = None.
Proof. vm_compute. repeat split. Qed.

(** C2, amended.  For a well-formed balanced input the scan never reports
    the whole input: a reported span starts at offset 1 or later, one past
    the first colon, and stops before the last character, one past an inner
    closing brace beyond offset 1000 that is not skipped after a backslash,
    stands outside every string and takes the depth from 2 to 1; it is the
    first such brace beyond offset 1000. *)
Theorem balanced_input_span_is_inner (s : text) :
  well_formed_balanced s = true ->
  forall a b,
    scan s = Some (a, b) ->
    a = find s colon + 1 /\ 1 <= a /\ b < len s /\
    1000 < b - 1 /\
    char_at s (b - 1) = Some rbrace /\
    escape_next (state_before s (b - 1)) = false /\
    in_string (state_before s (b - 1)) = false /\
    depth (state_before s (b - 1)) = 2 /\
    depth (state_before s b) = 1 /\
    closes_to_target s (b - 1) /\
    (forall j, closes_to_target s j -> 1000 < j -> b - 1 <= j).
Proof.
  intros Hwf a b H. apply andb_prop in Hwf as [Hbal _].
  apply balanced_region_final_depth in Hbal.
  apply scan_Some_iff in H as (Hf & -> & Hb & Hcl & Hmin).
  pose proof (closes_to_target_inv _ _ Hcl) as (Hc & He & Hs & Hd & Hst).
  replace (b - 1 + 1) with b in Hst by lia.
  pose proof (char_at_range _ _ _ Hc) as Hr.
  repeat split; try assumption.
  - unfold find in *. destruct (find_from_range colon s 0); lia.
  - destruct (Z.eq_dec b (len s)) as [->|Hne]; [|lia].
    rewrite Hst in Hbal. discriminate.
  - now rewrite Hst.
Qed.

Lemma balanced_input_span_is_inner_witness :
  5 = find nested_sample colon + 1 /\ 1 <= 5 /\ 1007 < len nested_sample /\
  1000 < 1007 - 1 /\
  char_at nested_sample (1007 - 1) = Some rbrace /\
  escape_next (state_before nested_sample (1007 - 1)) = false /\
  in_string (state_before nested_sample (1007 - 1)) = false /\
  depth (state_before nested_sample (1007 - 1)) = 2 /\
  depth (state_before nested_sample 1007) = 1 /\
  closes_to_target nested_sample (1007 - 1) /\
  (forall j, closes_to_target nested_sample j -> 1000 < j -> 1007 - 1 <= j).
Proof.
  apply (balanced_input_span_is_inner nested_sample).
  - vm_compute. reflexivity.
  - vm_compute. reflexivity.
Defined.

(** C3, counterexample.  A backslash met outside every string sets
    [escape_next] while [in_string] is false, and the character after it is
    skipped: the brace does not change the depth and the quote does not
    open a string. *)
Lemma escape_next_set_outside_string :
  escape_next (state_before [backslash; lbrace] 1) = true /\
  in_string (state_before [backslash; lbrace] 1) = false /\
  depth (final_state [backslash; lbrace]) = 0 /\
  in_string (final_state [backslash; dquote]) = false.
Proof. vm_compute. repeat split. Qed.

(** C3, amended.  At every point of a scan [escape_next] is true exactly
    when the character just read is a backslash that was not itself
    escaped, whether or not [in_string] is true; the character read while
    [escape_next] is true is skipped: it neither toggles [in_string] nor
    changes the depth. *)
Theorem escape_next_follows_any_backslash (s : text) (i : Z) (c : ascii) :
  char_at s i = Some c ->
  (escape_next (state_before s (i + 1)) = true <->
   c = backslash /\ escape_next (state_before s i) = false) /\
  (escape_next (state_before s i) = true ->
   in_string (state_before s (i + 1)) = in_string (state_before s i) /\
   depth (state_before s (i + 1)) = depth (state_before s i)).
Proof.
  intros Hc. rewrite (state_before_succ _ _ _ Hc), advance_eq.
  destruct (state_before s i) as [d b e].
  cbn [escape_next in_string depth].
  destruct e; cbn [set_escape_next escape_next in_string depth].
  - split; [|auto]. split; [discriminate|]. intros [_ H]. discriminate.
  - split; [|discriminate].
    destruct (Ascii.eqb_spec c backslash) as [->|Hb]; cbn; [tauto|].
    assert (forall st : ScanState, escape_next st = false ->
              (escape_next st = true <-> c = backslash /\ false = false))
      as Hno by (intros st ->; split; [discriminate|tauto]).
    destruct (Ascii.eqb c dquote), b, (Ascii.eqb c lbrace),
      (Ascii.eqb c rbrace); apply Hno; reflexivity.
Qed.

Lemma escape_next_follows_any_backslash_witness :
  (escape_next (state_before [backslash; lbrace] (0 + 1)) = true <->
   backslash = backslash /\
   escape_next (state_before [backslash; lbrace] 0) = false) /\
  (escape_next (state_before [backslash; lbrace] 0) = true ->
   in_string (state_before [backslash; lbrace] (0 + 1)) =
   in_string (state_before [backslash; lbrace] 0) /\
   depth (state_before [backslash; lbrace] (0 + 1)) =
   depth (state_before [backslash; lbrace] 0)).
Proof.
  apply (escape_next_follows_any_backslash [backslash; lbrace] 0 backslash).
  reflexivity.
Defined.

(** C4, counterexample.  The sample with the escaped quote is 12 characters
    long, not 13, and the scan reports nothing for it. *)
Lemma escaped_quote_sample_not_reported :
  len escaped_quote_sample = 12 /\
  scan escaped_quote_sample = None.
Proof. vm_compute. repeat split. Qed.

(** C4, amended.  The quote that follows a backslash never ends the string:
    in the sample the backslash stands at offset 7 and the quote at offset
    8, [in_string] is still true after that quote, and the whole sample is
    read back to depth 0 outside every string; but the sample is 12
    characters long and its closing brace, at offset 11, takes the depth
    from 1 to 0 below the threshold, so the scan reports not found. *)
Theorem escaped_quote_kept_in_string :
  (forall st c, escape_next st = true ->
     advance st c = set_escape_next false st) /\
  char_at escaped_quote_sample 7 = Some backslash /\
  char_at escaped_quote_sample 8 = Some dquote /\
  in_string (state_before escaped_quote_sample 8) = true /\
  in_string (state_before escaped_quote_sample 9) = true /\
  char_at escaped_quote_sample 11 = Some rbrace /\
  depth (state_before escaped_quote_sample 11) = 1 /\
  final_state escaped_quote_sample = initial /\
  len escaped_quote_sample = 12 /\
  scan escaped_quote_sample = None.
Proof.
  split.
  - intros st c H. rewrite advance_eq, H. reflexivity.
  - vm_compute. repeat split.
Qed.

(** C5, counterexample.  For the sample with braces inside a string the
    scan reports no span at all, hence not the span of the outer object. *)
Lemma brace_in_string_sample_not_reported :
  len brace_in_string_sample = 21 /\
  scan brace_in_string_sample <> Some (0, 21) /\
  scan brace_in_string_sample = None.
Proof. vm_compute. repeat split. discriminate. Qed.

(** C5, amended.  A brace inside a quoted string never changes the depth,
    and a reported span never stops at such a brace; the sample is read
    back to depth 0 outside every string, and as it is shorter than the
    threshold the scan reports not found for it. *)
Theorem braces_in_strings_ignored :
  (forall st c, in_string st = true -> depth (advance st c) = depth st) /\
  (forall s a b, scan s = Some (a, b) ->
     char_at s (b - 1) = Some rbrace /\
     in_string (state_before s (b - 1)) = false) /\
  final_state brace_in_string_sample = initial /\
  len brace_in_string_sample = 21 /\
  scan brace_in_string_sample = None.
Proof.
  repeat split.
  - intros [d b e] c H. cbn in H. subst b. rewrite advance_eq.
    cbn [escape_next in_string].
    destruct e, (Ascii.eqb c backslash), (Ascii.eqb c dquote); reflexivity.
  - apply scan_Some_iff in H as (_ & _ & _ & Hcl & _).
    now apply closes_to_target_inv in Hcl.
  - apply scan_Some_iff in H as (_ & _ & _ & Hcl & _).
    now apply closes_to_target_inv in Hcl.
Qed.


(** C6, counterexample.  The stray brace takes the depth to -1 and it stays
    one too low to the end: the object after it is not reported.  This is
    not only the threshold at work: [nested_sample] alone is reported, and
    the same sample behind a stray closing brace is not. *)
Lemma stray_brace_hides_object :
  scan stray_brace_sample = None /\
  depth (final_state stray_brace_sample) = -1 /\
  scan nested_sample = Some (5, 1007) /\
  scan (rbrace :: nested_sample) = None.
Proof. vm_compute. repeat split. Qed.

(** C6, amended.  A stray leading closing brace raises no error, and the
    depth is not clamped: it goes to -1, and from then on every state is
    the state of the scan without the stray brace with the depth one lower,
    so that the closing braces that count are those that would have taken
    the depth to 2; for the sample the scan reports not found. *)
Theorem stray_brace_lowers_depth (s : text) :
  depth (final_state [rbrace]) = -1 /\
  final_state (rbrace :: s) =
    set_depth (depth (final_state s) - 1) (final_state s) /\
  (forall j, 0 <= j ->
     (closes_to_target (rbrace :: s) (j + 1) <->
      char_at s j = Some rbrace /\
      escape_next (state_before s j) = false /\
      in_string (state_before s j) = false /\
      depth (state_before s j) = target_depth + 2)) /\
  scan stray_brace_sample = None.
Proof.
  split; [reflexivity|]. split; [|split; [|reflexivity]].
  - unfold final_state. cbn [run fold_left].
    change (advance initial rbrace)
      with (set_depth (depth initial + -1) initial).
    fold (run (set_depth (depth initial + -1) initial) s).
    rewrite run_shift. reflexivity.
  - intros j Hj. unfold closes_to_target.
    rewrite char_at_after_stray, state_before_after_stray by assumption.
    destruct (state_before s j) as [d b e].
    cbn [set_depth depth in_string escape_next].
    split.
    + intros (c & Hc & H). apply closing_inv in H as (-> & He & Hs & Hd).
      cbn [set_depth depth in_string escape_next] in *.
      repeat split; auto; lia.
    + intros (Hc & He & Hs & Hd). exists rbrace. split; [assumption|].
      subst. reflexivity.
Qed.

(** C7, counterexample.  [truncated_sample] ends with a brace still open
    and [unterminated_sample] ends inside a string, and for both the scan
    reports the span found before the end. *)
Lemma unbalanced_input_still_reported :
  depth (final_state truncated_sample) = 1 /\
  scan truncated_sample = Some (5, 1007) /\
  in_string (final_state unterminated_sample) = true /\
  scan unterminated_sample = Some (5, 1007).
Proof. vm_compute. repeat split. Qed.

(** C7, amended.  For an input that ends with unbalanced braces or inside a
    string, and in which no closing brace beyond offset 1000 has taken the
    depth to 1 outside every string, the scan reads the whole input and
    reports not found, never a partial span, and raises no error. *)
Theorem exhausted_input_not_found (s : text) :
  depth (final_state s) <> 0 \/ in_string (final_state s) = true ->
  (forall j, closes_to_target s j -> j <= min_close_offset) ->
  scan s = None /\ fst (run_block initial s) = final_state s.
Proof.
  intros _ H.
  assert (Hn : scan s = None) by (apply scan_None_iff; now right).
  split; [assumption|]. now apply scan_loop_exhausts.
Qed.

Lemma exhausted_input_not_found_witness :
  scan unclosed_sample = None /\
  fst (run_block initial unclosed_sample) = final_state unclosed_sample.
Proof.
  apply (exhausted_input_not_found unclosed_sample).
  - left. vm_compute. discriminate.
  - apply short_has_no_late_closing. vm_compute. discriminate.
Defined.

(** C8, counterexample.  The comment of [straddling_sample] lies across the
    boundary of the first chunk of 50000 characters: read chunk by chunk
    the file is reported to hold no comment pattern, read as one chunk it
    is reported to hold one. *)
Lemma chunk_boundary_hides_match :
  len straddling_sample = 50017 /\
  search_file chunk_size straddling_sample = Some false /\
  search_file (List.length straddling_sample) straddling_sample = Some true.
Proof. vm_compute. repeat split. Qed.

(** C8, amended.  The chunked search always ends, and each chunk is
    searched on its own: a find is reported exactly when one single chunk
    holds a whole match, so that a match lying across a chunk boundary is
    not seen.  Whatever the chunk size, a find reported chunk by chunk is
    also reported when the whole input is fed at once. *)
Theorem chunked_search_sees_one_chunk_at_a_time (n : nat) (content : text) :
  (exists found, search_file n content = Some found) /\
  (search_file n content = Some true <->
   exists k, Found pattern (chunk n k content)) /\
  (search_file (List.length content) content = Some true <->
   Found pattern content) /\
  (search_file n content = Some true ->
   search_file (List.length content) content = Some true).
Proof.
  split; [apply read_loop_returns; lia|].
  split; [apply search_file_true|].
  split; [apply search_whole_true|].
  intros H. apply search_whole_true. apply search_file_true in H as (k & H).
  destruct (chunk_inside n k content) as (a & b & E). rewrite E.
  now apply Found_inside.
Qed.

Lemma chunked_search_sees_one_chunk_at_a_time_witness :
  search_file (List.length comment) comment = Some true.
Proof.
  destruct (chunked_search_sees_one_chunk_at_a_time 100 comment)
    as (_ & _ & _ & H).
  apply H. vm_compute. reflexivity.
Defined.

(** C9.  The block sets its three variables before the loop, so the result
    does not depend on what they held: running the block again on the same
    sample, from the state the first run left behind, reports the same. *)
Theorem run_block_repeatable (g g' : ScanState) (s : text) :
  run_block g s = run_block g' s /\
  snd (run_block (fst (run_block g s)) s) = snd (run_block g s).
Proof. split; reflexivity. Qed.

(** C10.  The threshold is 1000 and the target depth is 1: a span is
    reported only at a closing brace that takes the depth to exactly 1 at
    an offset greater than 1000, so an input whose closing braces at depth
    1 all stand at offset 1000 or before, and in particular every input of
    at most 1001 characters, is reported as not found. *)
Theorem threshold_and_depth_hard_coded (s : text) :
  min_close_offset = 1000 /\ target_depth = 1 /\
  (forall a b, scan s = Some (a, b) ->
     char_at s (b - 1) = Some rbrace /\
     in_string (state_before s (b - 1)) = false /\
     depth (state_before s (b - 1)) = 2 /\
     depth (state_before s b) = 1 /\
     1000 < b - 1) /\
  ((forall j, closes_to_target s j -> j <= 1000) -> scan s = None) /\
  (len s <= 1001 -> scan s = None).
Proof.
  split; [reflexivity|]. split; [reflexivity|]. repeat split.
  1-5: apply scan_Some_iff in H as (_ & _ & Hb & Hcl & _);
       apply closes_to_target_inv in Hcl as (Hc & _ & Hs & Hd & Hst);
       replace (b - 1 + 1) with b in Hst by lia;
       try rewrite Hst; auto.
  - intros H. apply scan_None_iff. now right.
  - intros H. apply scan_None_iff. right.
    now apply short_has_no_late_closing.
Qed.

Lemma threshold_and_depth_hard_coded_witness :
  scan brace_in_string_sample = None /\
  (char_at nested_sample (1007 - 1) = Some rbrace /\
   in_string (state_before nested_sample (1007 - 1)) = false /\
   depth (state_before nested_sample (1007 - 1)) = 2 /\
   depth (state_before nested_sample 1007) = 1 /\
   1000 < 1007 - 1).
Proof.
  split.
  - destruct (threshold_and_depth_hard_coded brace_in_string_sample)
      as (_ & _ & _ & _ & H).
    apply H. vm_compute. discriminate.
  - destruct (threshold_and_depth_hard_coded nested_sample)
      as (_ & _ & H & _).
    apply (H 5 1007). vm_compute. reflexivity.
Defined.

(** * Further properties of [analyze_comment_structure.py] *)

Section SliceFacts.

Lemma len_slice (s : text) (a b : Z) :
  0 <= a -> a <= b -> b <= len s -> len (slice s a b) = b - a.
Proof.
  unfold slice, len. intros Ha Hab Hb.
  rewrite length_firstn, length_skipn. lia.
Qed.

Lemma len_slice_le (s : text) (a b : Z) :
  a <= b -> len (slice s a b) <= b - a.
Proof.
  unfold slice, len. intros Hab. rewrite length_firstn. lia.
Qed.

Lemma slice_slice (s : text) (a b c d : Z) :
  0 <= a -> 0 <= c -> a + d <= b ->
  slice (slice s a b) c d = slice s (a + c) (a + d).
Proof.
  intros Ha Hc Hb. unfold slice.
  rewrite skipn_firstn_comm, firstn_firstn, skipn_skipn.
  f_equal; [|f_equal]; lia.
Qed.

Lemma slice_empty (s : text) (a b : Z) : b <= a -> slice s a b = [].
Proof.
  intros H. unfold slice. now replace (Z.to_nat (b - a)) with O by lia.
Qed.

Lemma slice_split (s : text) (a b : Z) :
  0 <= a -> a <= b ->
  s = slice s 0 a ++ slice s a b ++ skipn (Z.to_nat b) s.
Proof.
  intros Ha Hab. unfold slice. cbn [skipn Z.to_nat].
  replace (Z.to_nat (a - 0)) with (Z.to_nat a) by lia.
  replace (Z.to_nat b) with (Z.to_nat (b - a) + Z.to_nat a)%nat by lia.
  rewrite <- skipn_skipn, firstn_skipn, firstn_skipn. reflexivity.
Qed.

Lemma slice_snoc (s : text) (a i : Z) (c : ascii) :
  0 <= a -> a <= i -> char_at s i = Some c ->
  slice s a (i + 1) = slice s a i ++ [c].
Proof.
  intros Ha Hai Hc. unfold char_at in Hc.
  destruct (Z.ltb_spec i 0); [lia|].
  apply nth_error_split in Hc as (l1 & l2 & -> & Hl).
  unfold slice. rewrite skipn_app.
  replace (Z.to_nat a - List.length l1)%nat with 0%nat by lia.
  cbn [skipn].
  assert (Hk : List.length (skipn (Z.to_nat a) l1) = Z.to_nat (i - a))
    by (rewrite length_skipn; lia).
  replace (Z.to_nat (i + 1 - a))
    with (List.length (skipn (Z.to_nat a) l1) + 1)%nat by lia.
  rewrite firstn_app_2, <- Hk, firstn_prefix. reflexivity.
Qed.

End SliceFacts.

Section FindFacts.

Lemma starts_with_iff (needle s : text) :
  starts_with needle s = true <-> exists rest, s = needle ++ rest.
Proof.
  revert s. induction needle as [|c needle IH]; intros s; cbn [starts_with].
  - split; [intros _; now exists s|reflexivity].
  - destruct s as [|x s].
    + split; [discriminate|]. intros (rest & H). discriminate.
    + rewrite andb_true_iff, Ascii.eqb_eq, IH. split.
      * intros (-> & rest & ->). now exists rest.
      * intros (rest & H). cbn [app] in H. injection H as -> ->.
        split; [reflexivity|now exists rest].
Qed.

Lemma occurs_at_slice (needle s : text) (p : Z) :
  occurs_at needle s p ->
  p + len needle <= len s /\ slice s p (p + len needle) = needle.
Proof.
  intros (Hp & H). apply starts_with_iff in H as (rest & H).
  assert (Hl : (List.length (skipn (Z.to_nat p) s)
                = List.length needle + List.length rest)%nat)
    by now rewrite H, length_app.
  rewrite length_skipn in Hl. unfold slice, len in *. split; [lia|].
  rewrite H. replace (Z.to_nat (p + Z.of_nat (List.length needle) - p))
    with (List.length needle) by lia.
  apply firstn_prefix.
Qed.

Lemma find_sub_from_spec (needle s : text) :
  forall i,
    (find_sub_from needle s i = -1 /\
     forall k, (k <= List.length s)%nat ->
               starts_with needle (skipn k s) = false)
    \/ (exists k, find_sub_from needle s i = i + Z.of_nat k /\
                  (k <= List.length s)%nat /\
                  starts_with needle (skipn k s) = true /\
                  forall j, (j < k)%nat ->
                            starts_with needle (skipn j s) = false).
Proof.
  induction s as [|x s IH]; intros i; cbn [find_sub_from].
  - destruct (starts_with needle []) eqn:E.
    + right. exists 0%nat. cbn [skipn List.length].
      repeat split; [lia|lia|assumption|intros j Hj; lia].
    + left. split; [reflexivity|]. intros k Hk. cbn [List.length] in Hk.
      now replace k with 0%nat by lia.
  - destruct (starts_with needle (x :: s)) eqn:E.
    + right. exists 0%nat. cbn [skipn].
      repeat split; [lia|cbn [List.length]; lia|assumption|intros j Hj; lia].
    + destruct (IH (i + 1)) as [(H1 & H2)|(k & H1 & Hk & H2 & H3)].
      * left. split; [assumption|]. intros [|k] Hk; [assumption|].
        cbn [skipn]. apply H2. cbn [List.length] in Hk. lia.
      * right. exists (S k). cbn [skipn List.length].
        repeat split; [lia|lia|assumption|].
        intros [|j] Hj; [assumption|]. cbn [skipn]. apply H3. lia.
Qed.

Lemma find_sub_found (s needle : text) (p : Z) :
  find_sub s needle = p -> p <> -1 ->
  occurs_at needle s p /\
  forall q, occurs_at needle s q -> p <= q.
Proof.
  unfold find_sub. intros H Hp.
  destruct (find_sub_from_spec needle s 0)
    as [(H1 & _)|(k & H1 & Hk & H2 & H3)]; [congruence|].
  assert (p = Z.of_nat k) as -> by lia.
  split.
  - split; [unfold len; lia|]. now rewrite Nat2Z.id.
  - intros q (Hq & Ho).
    destruct (Z_lt_le_dec q (Z.of_nat k)) as [Hlt|]; [|assumption].
    rewrite H3 in Ho by lia. discriminate.
Qed.

Lemma find_sub_missing (s needle : text) :
  find_sub s needle = -1 -> forall q, ~ occurs_at needle s q.
Proof.
  unfold find_sub. intros H q (Hq & Ho).
  destruct (find_sub_from_spec needle s 0)
    as [(_ & H1)|(k & H1 & _)]; [|lia].
  rewrite H1 in Ho by (unfold len in Hq; lia). discriminate.
Qed.

End FindFacts.

(** X1.  When a key of at most 700 characters is found in the sample, as
    both keys of the script are, the context printed for it is cut around
    the first place where the key stands: it is at most 1000 characters
    long and holds the key whole, 300 characters from its start, or fewer
    when the key stands nearer the start of the sample.  When the key
    stands nowhere in the sample nothing is printed. *)
Theorem context_window_holds_the_key (sample key : text) :
  len key <= 700 ->
  match context_around sample key with
  | Some ctx =>
      occurs_at key sample (find_sub sample key) /\
      (forall q, occurs_at key sample q -> find_sub sample key <= q) /\
      len ctx <= 1000 /\
      slice ctx (Z.min (find_sub sample key) 300)
                (Z.min (find_sub sample key) 300 + len key) = key
  | None => forall q, ~ occurs_at key sample q
  end.
Proof.
  intros Hk. unfold context_around.
  destruct (Z.eqb_spec (find_sub sample key) (-1)) as [E|E]; cbn [negb].
  - now apply find_sub_missing.
  - destruct (find_sub_found sample key _ eq_refl E) as (Ho & Hmin).
    set (p := find_sub sample key) in *.
    destruct (occurs_at_slice _ _ _ Ho) as (Hle & Hs).
    destruct Ho as ((Hp0 & Hpl) & Ho'). pose proof (len_nonneg key).
    repeat split; try assumption.
    + etransitivity; [apply len_slice_le|]; lia.
    + rewrite slice_slice by lia.
      replace (Z.max 0 (p - 300) + Z.min p 300) with p by lia.
      replace (Z.max 0 (p - 300) + (Z.min p 300 + len key))
        with (p + len key) by lia.
      assumption.
Qed.

Lemma context_window_holds_the_key_witness :
  match context_around keyed_sample username_key with
  | Some ctx =>
      occurs_at username_key keyed_sample
        (find_sub keyed_sample username_key) /\
      (forall q, occurs_at username_key keyed_sample q ->
                 find_sub keyed_sample username_key <= q) /\
      len ctx <= 1000 /\
      slice ctx (Z.min (find_sub keyed_sample username_key) 300)
                (Z.min (find_sub keyed_sample username_key) 300
                 + len username_key)
      = username_key
  | None => forall q, ~ occurs_at username_key keyed_sample q
  end.
Proof.
  apply (context_window_holds_the_key keyed_sample username_key).
  vm_compute. discriminate.
Defined.

Section LoopFacts.

Lemma len_cons (c : ascii) (s : text) : len (c :: s) = len s + 1.
Proof. unfold len. cbn [List.length]. lia. Qed.

Lemma len_app (s t : text) : len (s ++ t) = len s + len t.
Proof. unfold len. rewrite length_app. lia. Qed.

Lemma find_from_app (c : ascii) (s t : text) :
  forall i, find_from c s i <> -1 ->
            find_from c (s ++ t) i = find_from c s i.
Proof.
  induction s as [|x s IH]; intros i; cbn [find_from app].
  - intros H. now contradiction H.
  - destruct (Ascii.eqb x c); [reflexivity|]. apply IH.
Qed.

Lemma first_closing_app (s t : text) :
  forall st i,
    first_closing st i (s ++ t) =
    match first_closing st i s with
    | Some k => Some k
    | None => first_closing (run st s) (i + len s) t
    end.
Proof.
  induction s as [|c s IH]; intros st i; cbn [first_closing app run fold_left].
  - f_equal. unfold len. cbn. lia.
  - destruct (closing st c && (i >? min_close_offset)); [reflexivity|].
    rewrite IH, len_cons. destruct (first_closing (advance st c) (i + 1) s);
      [reflexivity|].
    f_equal. lia.
Qed.

End LoopFacts.

(** X3.  A span once found is final: whatever text comes after the
    sample, the scan of the longer sample reports the same span. *)
Theorem found_span_is_final (s t : text) (sp : span) :
  scan s = Some sp -> scan (s ++ t) = Some sp.
Proof.
  rewrite !scan_eq.
  destruct (Z.eqb_spec (find s colon) (-1)) as [|Hf]; [discriminate|].
  unfold find in *. rewrite (find_from_app _ _ t _ Hf).
  destruct (Z.eqb_spec (find_from colon s 0) (-1)); [contradiction|].
  rewrite first_closing_app.
  destruct (first_closing initial 0 s); [trivial|discriminate].
Qed.

Lemma found_span_is_final_witness :
  scan (nested_sample ++ js ",'b':{}}") = Some (5, 1007).
Proof.
  apply (found_span_is_final nested_sample). vm_compute. reflexivity.
Defined.

Ltac loop_turn :=
  cbn [app scan_loop]; rewrite loop_body_eq, advance_eq; unfold closing;
  cbn [escape_next in_string depth negb andb
       set_in_string set_escape_next set_depth].

Lemma string_body_loop (sample : text) (d : Z) (w : text) :
  string_body w ->
  forall i,
    scan_loop sample (mkState d true false) i (w ++ [dquote]) =
    (mkState d false false, None).
Proof.
  induction 1 as [|c w Hq Hb Hw IH|c w Hw IH]; intros i.
  - loop_turn. reflexivity.
  - loop_turn. apply Ascii.eqb_neq in Hq, Hb. rewrite Hq, Hb. apply IH.
  - loop_turn. change (Ascii.eqb backslash backslash) with true.
    cbn iota. loop_turn. apply IH.
Qed.

(** X4.  A whole string literal is skipped: met outside a string, a quote,
    any characters with every backslash followed by one character, and the
    closing quote leave the state as it was and end no span, whatever
    braces and escaped quotes the literal holds. *)
Theorem string_literal_is_skipped (sample : text) (st : ScanState) (w : text) :
  escape_next st = false -> in_string st = false -> string_body w ->
  forall i, scan_loop sample st i (dquote :: w ++ [dquote]) = (st, None).
Proof.
  intros He Hs Hw i.
  destruct st as [d b e]; cbn [escape_next in_string] in *; subst.
  loop_turn. change (Ascii.eqb dquote backslash) with false.
  change (Ascii.eqb dquote dquote) with true. cbn iota.
  now apply string_body_loop.
Qed.

Lemma string_literal_is_skipped_witness :
  scan_loop [] initial 0
    (dquote :: [lbrace; backslash; dquote; rbrace] ++ [dquote])
  = (initial, None).
Proof.
  apply (string_literal_is_skipped [] initial
           [lbrace; backslash; dquote; rbrace]); try reflexivity.
  apply body_plain; [discriminate|discriminate|].
  apply body_escape. apply body_plain; [discriminate|discriminate|].
  apply body_nil.
Defined.

Section RegionFacts.

Lemma closings_complete (rest : text) :
  forall pre j,
    len pre <= j -> closes_to_target (pre ++ rest) j ->
    In j (closings (run initial pre) (len pre) rest).
Proof.
  induction rest as [|c rest IH]; intros pre j Hj Hc; cbn [closings].
  - destruct Hc as (x & Hx & _). apply char_at_range in Hx.
    rewrite app_nil_r in Hx. lia.
  - apply in_or_app. destruct (Z.eq_dec j (len pre)) as [->|Hne].
    + left. apply closes_at_prefix in Hc. rewrite Hc. now left.
    + right. rewrite <- run_snoc, <- (len_snoc pre c).
      apply IH; [rewrite len_snoc; lia|]. now rewrite <- snoc_app.
Qed.

Lemma advance_depth (st : ScanState) (c : ascii) :
  depth st - 1 <= depth (advance st c) /\
  (depth (advance st c) = depth st - 1 ->
   closing st c = (depth st - 1 =? target_depth)).
Proof.
  rewrite advance_eq. unfold closing. destruct st as [d b e].
  cbn [escape_next in_string depth].
  destruct e; cbn [set_escape_next depth negb andb]; [lia|].
  destruct (Ascii.eqb_spec c backslash) as [->|Hb];
    cbn [set_escape_next depth]; [lia|].
  destruct (Ascii.eqb_spec c dquote) as [->|Hq];
    cbn [set_in_string depth]; [lia|].
  destruct b; cbn [negb andb depth]; [lia|].
  destruct (Ascii.eqb_spec c lbrace) as [->|Hl];
    cbn [set_depth depth]; [lia|].
  destruct (Ascii.eqb_spec c rbrace) as [->|Hr];
    cbn [set_depth depth]; [|lia].
  split; [lia|reflexivity].
Qed.

Lemma find_char_at (s : text) (c : ascii) :
  find s c <> -1 -> char_at s (find s c) = Some c.
Proof.
  unfold find.
  assert (H : forall t i, 0 <= i -> find_from c t i <> -1 ->
            i <= find_from c t i /\
            nth_error t (Z.to_nat (find_from c t i - i)) = Some c).
  { induction t as [|x t IH]; intros i Hi; cbn [find_from].
    - intros H. now contradiction H.
    - destruct (Ascii.eqb_spec x c) as [->|Hx].
      + intros _. split; [lia|]. now rewrite Z.sub_diag.
      + intros H. destruct (IH (i + 1)) as (Hle & Hn); [lia|assumption|].
        split; [lia|].
        replace (Z.to_nat (find_from c t (i + 1) - i))
          with (S (Z.to_nat (find_from c t (i + 1) - (i + 1)))) by lia.
        exact Hn. }
  intros Hf. destruct (H s 0) as (Hle & Hn); [lia|assumption|].
  unfold char_at. destruct (Z.ltb_spec (find_from c s 0) 0); [lia|].
  now rewrite Z.sub_0_r in Hn.
Qed.

Lemma firstn_slice (s : text) (a k : Z) :
  0 <= a -> 0 <= k ->
  firstn (Z.to_nat (a + k)) s = firstn (Z.to_nat a) s ++ slice s a (a + k).
Proof.
  intros Ha Hk. unfold slice.
  replace (Z.to_nat (a + k - a)) with (Z.to_nat k) by lia.
  rewrite <- (firstn_skipn (Z.to_nat a) s) at 1.
  rewrite firstn_app, firstn_firstn, length_firstn.
  f_equal; [f_equal; lia|].
  destruct (Nat.le_gt_cases (Z.to_nat a) (List.length s)) as [Hle|Hgt].
  - f_equal. lia.
  - rewrite skipn_all2 by lia. now rewrite !firstn_nil.
Qed.

(** The states met inside a slice that starts at depth 1 outside every
    string are those of the slice read alone, one level deeper. *)
Lemma state_in_slice (s : text) (a k : Z) :
  0 <= a -> 0 <= k ->
  state_before s a = mkState 1 false false ->
  state_before s (a + k) =
  set_depth (depth (run initial (slice s a (a + k))) + 1)
    (run initial (slice s a (a + k))).
Proof.
  intros Ha Hk Hst. unfold state_before in *.
  rewrite firstn_slice, run_app, Hst by assumption.
  change (mkState 1 false false) with (set_depth (depth initial + 1) initial).
  apply run_shift.
Qed.

Lemma first_return_last (t : text) :
  forall st i,
    t <> [] ->
    (forall k, (1 <= k < List.length t)%nat ->
               depth (run st (firstn k t)) <> 0) ->
    depth (run st t) = 0 ->
    first_return st i t = i + len t - 1.
Proof.
  induction t as [|c t IH]; intros st i Hne Hin Hend; [contradiction|].
  cbn [first_return]. rewrite len_cons.
  destruct (Z.eqb_spec (depth (advance st c)) 0) as [E|E].
  - destruct t as [|x t]; [unfold len; cbn; lia|].
    exfalso. apply (Hin 1%nat); [cbn [List.length]; lia|exact E].
  - rewrite IH.
    + lia.
    + intros ->. now apply E.
    + intros k Hk. apply (Hin (S k)). cbn [List.length]. lia.
    + exact Hend.
Qed.

End RegionFacts.

(** X5.  On the shape the scan is written for, the reported substring is
    one object: when the character after the first colon is an opening
    brace met at depth 1 outside every string, and no brace closes back to
    depth 1 between it and the reported brace, the substring is exactly one
    balanced region. *)
Theorem first_value_object_is_reported_whole (s : text) (a b : Z) :
  scan s = Some (a, b) ->
  a < b ->
  state_before s a = mkState 1 false false ->
  char_at s a = Some lbrace ->
  (forall j, a < j -> j < b - 1 -> ~ closes_to_target s j) ->
  balanced_region (obj_sample s (a, b)) = true.
Proof.
  intros Hscan Hab Hst Ha Hno.
  apply scan_Some_iff in Hscan as (_ & _ & _ & Hcl & _).
  apply closes_to_target_inv in Hcl as (Hb & _ & _ & _ & Hend).
  replace (b - 1 + 1) with b in Hend by lia.
  pose proof (char_at_range _ _ _ Ha) as Ha'.
  pose proof (char_at_range _ _ _ Hb) as Hb'.
  assert (Hab' : a < b - 1).
  { destruct (Z.eq_dec a (b - 1)) as [E|]; [|lia].
    rewrite E in Ha. rewrite Ha in Hb. discriminate. }
  (* the depth stays at 2 or more inside the region *)
  assert (Hdeep : forall n : nat, a + 1 + Z.of_nat n <= b - 1 ->
            2 <= depth (state_before s (a + 1 + Z.of_nat n))).
  { induction n as [|n IHn]; intros Hn.
    - replace (a + 1 + Z.of_nat 0) with (a + 1) by lia.
      rewrite (state_before_succ _ _ _ Ha), Hst. cbn. lia.
    - replace (a + 1 + Z.of_nat (S n)) with (a + 1 + Z.of_nat n + 1) by lia.
      assert (H2 : 2 <= depth (state_before s (a + 1 + Z.of_nat n)))
        by (apply IHn; lia).
      destruct (char_at s (a + 1 + Z.of_nat n)) as [c|] eqn:Ec.
      2:{ unfold char_at in Ec.
          destruct (Z.ltb_spec (a + 1 + Z.of_nat n) 0); [lia|].
          apply nth_error_None in Ec. unfold len in Hb'. lia. }
      rewrite (state_before_succ _ _ _ Ec).
      destruct (advance_depth (state_before s (a + 1 + Z.of_nat n)) c)
        as (Hlo & Hcl).
      destruct (Z_le_gt_dec 2
        (depth (advance (state_before s (a + 1 + Z.of_nat n)) c)))
        as [|Hlt]; [assumption|].
      exfalso. apply (Hno (a + 1 + Z.of_nat n)); [lia|lia|].
      exists c. split; [assumption|]. rewrite Hcl by lia.
      apply Z.eqb_eq. unfold target_depth. lia. }
  (* read alone, the slice is one level less deep *)
  assert (Hrun : forall k, 0 <= k -> k <= b - a ->
            depth (run initial (slice s a (a + k))) =
            depth (state_before s (a + k)) - 1).
  { intros k Hk0 Hk. rewrite (state_in_slice s a k) by (lia || assumption).
    cbn [set_depth depth]. lia. }
  unfold obj_sample. cbn [fst snd].
  assert (Hlen : len (slice s a b) = b - a) by (apply len_slice; lia).
  assert (Hfirst : forall k : nat, (k <= Z.to_nat (b - a))%nat ->
            firstn k (slice s a b) = slice s a (a + Z.of_nat k)).
  { intros k Hk. unfold slice. rewrite firstn_firstn. f_equal. lia. }
  assert (Hhead : firstn 1 (slice s a b) = [lbrace]).
  { rewrite (Hfirst 1%nat) by lia. change (Z.of_nat 1) with 1.
    rewrite (slice_snoc s a a lbrace) by (lia || assumption).
    now rewrite slice_empty by lia. }
  assert (Hin : forall k, (1 <= k < List.length (slice s a b))%nat ->
            depth (run initial (firstn k (slice s a b))) <> 0).
  { intros k Hk. unfold len in Hlen.
    rewrite Hfirst by lia. rewrite Hrun by lia.
    replace (a + Z.of_nat k) with (a + 1 + Z.of_nat (k - 1)) by lia.
    assert (2 <= depth (state_before s (a + 1 + Z.of_nat (k - 1))))
      by (apply Hdeep; lia).
    lia. }
  assert (Hfin : depth (run initial (slice s a b)) = 0).
  { replace (slice s a b) with (slice s a (a + (b - a)))
      by (f_equal; lia).
    rewrite Hrun by lia. replace (a + (b - a)) with b by lia.
    rewrite Hend. reflexivity. }
  generalize dependent (slice s a b). intros t Hlen _ Hhead Hin Hfin.
  unfold balanced_region. destruct t as [|x t]; [discriminate|].
  cbn in Hhead. injection Hhead as ->.
  apply andb_true_intro. split; [reflexivity|]. apply Z.eqb_eq.
  rewrite first_return_last; [lia|discriminate|assumption|assumption].
Qed.

Lemma first_value_object_is_reported_whole_witness :
  balanced_region (obj_sample nested_sample (5, 1007)) = true.
Proof.
  apply (first_value_object_is_reported_whole nested_sample 5 1007).
  - vm_compute. reflexivity.
  - lia.
  - vm_compute. reflexivity.
  - vm_compute. reflexivity.
  - intros j H1 H2 Hc.
    apply (closings_complete nested_sample [] j) in Hc; [|cbn; lia].
    vm_compute in Hc. destruct Hc as [Hc|[]]. lia.
Defined.

(** X6.  The substring printed for a span is never cut by the end of the
    sample: when the first colon stands before the reported brace it has
    [b - a] characters and ends with that brace, and when the first colon
    stands after the brace it is empty. *)
Theorem obj_sample_ends_with_the_brace (s : text) (a b : Z) :
  scan s = Some (a, b) ->
  (a < b /\ len (obj_sample s (a, b)) = b - a /\
   exists t, obj_sample s (a, b) = t ++ [rbrace])
  \/ (b < a /\ obj_sample s (a, b) = []).
Proof.
  intros H. apply scan_Some_iff in H as (Hf & -> & _ & Hcl & _).
  apply closes_to_target_inv in Hcl as (Hb & _).
  pose proof (find_char_at _ _ Hf) as Hc.
  pose proof (char_at_range _ _ _ Hc). pose proof (char_at_range _ _ _ Hb).
  unfold obj_sample. cbn [fst snd].
  destruct (Z_lt_le_dec (find s colon + 1) b) as [Hlt|Hge].
  - left. split; [assumption|]. split; [apply len_slice; lia|].
    exists (slice s (find s colon + 1) (b - 1)).
    replace b with (b - 1 + 1) at 1 by lia.
    apply slice_snoc; [lia|lia|assumption].
  - right. assert (b <> find s colon + 1).
    { intros ->. replace (find s colon + 1 - 1) with (find s colon) in Hb
        by lia. rewrite Hc in Hb. discriminate. }
    split; [lia|]. apply slice_empty. lia.
Qed.

Lemma obj_sample_ends_with_the_brace_witness :
  ((5 < 1013 /\ len (obj_sample two_values_sample (5, 1013)) = 1013 - 5 /\
    exists t, obj_sample two_values_sample (5, 1013) = t ++ [rbrace])
   \/ (1013 < 5 /\ obj_sample two_values_sample (5, 1013) = []))
  /\
  ((1004 < 1003 /\ len (obj_sample late_colon_sample (1004, 1003)) = 1003 - 1004
    /\ exists t, obj_sample late_colon_sample (1004, 1003) = t ++ [rbrace])
   \/ (1003 < 1004 /\ obj_sample late_colon_sample (1004, 1003) = [])).
Proof.
  split.
  - apply (obj_sample_ends_with_the_brace two_values_sample).
    vm_compute. reflexivity.
  - apply (obj_sample_ends_with_the_brace late_colon_sample).
    vm_compute. reflexivity.
Defined.

Lemma slice_firstn (s : text) (n a b : Z) :
  0 <= a -> b <= n -> slice (firstn (Z.to_nat n) s) a b = slice s a b.
Proof.
  intros Ha H. unfold slice.
  rewrite skipn_firstn_comm, firstn_firstn. f_equal. lia.
Qed.

(** X7.  The script only reads the first 10000 characters of the file: a
    reported span starts and stops within them, its closing brace at an
    offset from 1001 to 9999, and what is printed is the first 2000
    characters of that slice of the file. *)
Theorem analysis_stays_in_the_first_ten_thousand (file : text) (a b : Z) :
  scan (sample_of_file file) = Some (a, b) ->
  1 <= a <= 10000 /\ 1002 <= b <= 10000 /\
  printed file = Some (firstn (Z.to_nat 2000) (slice file a b)).
Proof.
  intros H. unfold printed. rewrite H. cbn [option_map].
  apply scan_Some_iff in H as (Hf & -> & Hb & Hcl & _).
  apply closes_to_target_inv in Hcl as (Hc & _).
  pose proof (find_char_at _ _ Hf) as Hk.
  apply char_at_range in Hc, Hk.
  assert (Hl : len (sample_of_file file) <= 10000).
  { unfold len, sample_of_file. rewrite length_firstn. lia. }
  unfold min_close_offset in Hb.
  repeat split; try lia.
  unfold obj_sample, sample_of_file in *. cbn [fst snd].
  now rewrite slice_firstn by lia.
Qed.

Lemma analysis_stays_in_the_first_ten_thousand_witness :
  1 <= 5 <= 10000 /\ 1002 <= 1007 <= 10000 /\
  printed (nested_sample ++ padding (Z.to_nat 20000)) =
  Some (firstn (Z.to_nat 2000) (slice (nested_sample ++ padding (Z.to_nat 20000)) 5 1007)).
Proof.
  apply (analysis_stays_in_the_first_ten_thousand
           (nested_sample ++ padding (Z.to_nat 20000))).
  vm_compute. reflexivity.
Defined.

(** * Properties of the matches *)

Ltac stop_here s :=
  exists [], s; repeat rewrite app_nil_r; repeat split; auto.

Section FindallFacts.

Context {R : Type}.

Lemma many_sound (c : ascii -> bool) (k : text -> text -> option R) (s : text) :
  forall taken r,
    many c k taken s = Some r ->
    exists w rest, s = w ++ rest /\ Forall (fun x => c x = true) w /\
                   k (taken ++ w) rest = Some r.
Proof.
  induction s as [|x s IH]; intros taken r; cbn [many].
  - intros H. stop_here (@nil ascii).
  - destruct (c x) eqn:Ex.
    + destruct (many c k (taken ++ [x]) s) as [r'|] eqn:Em.
      * intros [= <-]. apply IH in Em as (w & rest & -> & Hw & Hk).
        exists (x :: w), rest. rewrite <- app_assoc in Hk.
        repeat split; auto.
      * intros H. stop_here (x :: s).
    + intros H. stop_here (x :: s).
Qed.

Lemma few_sound (c : ascii -> bool) (k : text -> text -> option R) (s : text) :
  forall taken r,
    few c k taken s = Some r ->
    exists w rest, s = w ++ rest /\ Forall (fun x => c x = true) w /\
                   k (taken ++ w) rest = Some r.
Proof.
  induction s as [|x s IH]; intros taken r; cbn [few].
  - destruct (k taken []) eqn:Ek; [|discriminate].
    intros [= <-]. stop_here (@nil ascii).
  - destruct (k taken (x :: s)) eqn:Ek.
    + intros [= <-]. stop_here (x :: s).
    + destruct (c x) eqn:Ex; [|discriminate].
      intros H. apply IH in H as (w & rest & -> & Hw & Hk).
      exists (x :: w), rest. rewrite <- app_assoc in Hk.
      repeat split; auto.
Qed.

Lemma many_complete (c : ascii -> bool) (k : text -> text -> option R)
  (w rest : text) :
  Forall (fun x => c x = true) w ->
  forall taken,
    k (taken ++ w) rest <> None -> many c k taken (w ++ rest) <> None.
Proof.
  induction 1 as [|x w Hx Hw IH]; intros taken Hk.
  - rewrite app_nil_r in Hk. cbn [app].
    destruct rest as [|y rest]; cbn [many]; [assumption|].
    destruct (c y); [|assumption].
    destruct (many c k (taken ++ [y]) rest); [discriminate|assumption].
  - cbn [app many]. rewrite Hx.
    assert (H : many c k (taken ++ [x]) (w ++ rest) <> None).
    { apply IH. now rewrite <- app_assoc. }
    destruct (many c k (taken ++ [x]) (w ++ rest)); [discriminate|].
    now contradiction H.
Qed.

Lemma few_complete (c : ascii -> bool) (k : text -> text -> option R)
  (w rest : text) :
  Forall (fun x => c x = true) w ->
  forall taken,
    k (taken ++ w) rest <> None -> few c k taken (w ++ rest) <> None.
Proof.
  induction 1 as [|x w Hx Hw IH]; intros taken Hk.
  - rewrite app_nil_r in Hk. cbn [app].
    destruct rest as [|y rest]; cbn [few];
      destruct (k taken _); (discriminate || now contradiction Hk).
  - cbn [app few]. destruct (k taken (x :: w ++ rest)); [discriminate|].
    rewrite Hx. apply IH. now rewrite <- app_assoc.
Qed.

End FindallFacts.

Section BacktrackFacts.

Lemma bt_sound (p : pat) :
  forall s g0 rest gs,
    bt p s g0 = Some (rest, gs) ->
    exists m gs', s = m ++ rest /\ Parses p m gs' /\ gs = rev gs' ++ g0.
Proof.
  induction p as [|[c|c|c|c] p IH]; intros s g0 rest gs; cbn [bt].
  - intros [= <- <-]. exists [], []. repeat split. constructor.
  - destruct s as [|x s]; [discriminate|].
    destruct (c x) eqn:Ex; [|discriminate].
    intros H. apply IH in H as (m & gs' & -> & Hp & ->).
    exists (x :: m), gs'. repeat split. now constructor.
  - intros H. apply many_sound in H as (w & rest' & -> & Hw & H).
    apply IH in H as (m & gs' & -> & Hp & ->).
    exists (w ++ m), gs'. rewrite app_assoc. repeat split. now constructor.
  - intros H. apply few_sound in H as (w & rest' & -> & Hw & H).
    apply IH in H as (m & gs' & -> & Hp & ->).
    exists (w ++ m), gs'. rewrite app_assoc. repeat split. now constructor.
  - destruct s as [|x s]; [discriminate|].
    destruct (c x) eqn:Ex; [|discriminate].
    intros H. apply many_sound in H as (w & rest' & -> & Hw & H).
    apply IH in H as (m & gs' & -> & Hp & ->).
    exists ((x :: w) ++ m), ((x :: w) :: gs').
    cbn [app rev]. rewrite <- !app_assoc. repeat split.
    apply (P_cap c (x :: w)); [discriminate|now constructor|assumption].
Qed.

Lemma bt_complete (p : pat) (m : text) (gs : list text) :
  Parses p m gs -> forall rest g0, bt p (m ++ rest) g0 <> None.
Proof.
  induction 1 as [|c x p m gs Hx Hp IH|c w p m gs Hw Hp IH
                  |c w p m gs Hw Hp IH|c w p m gs Hne Hw Hp IH];
    intros rest g0; cbn [bt app].
  - discriminate.
  - rewrite Hx. apply IH.
  - rewrite <- app_assoc. apply many_complete; [assumption|apply IH].
  - rewrite <- app_assoc. apply few_complete; [assumption|apply IH].
  - destruct w as [|x w]; [contradiction|]. cbn [app].
    inversion Hw as [|? ? Hx Hw']; subst. rewrite Hx.
    rewrite <- app_assoc. apply many_complete; [assumption|apply IH].
Qed.

(** A match found by [findall] is a match. *)
Lemma findall_from_In (p : pat) (s : text) :
  forall skip gs,
    In gs (findall_from p s skip) ->
    exists pre m post, s = pre ++ m ++ post /\ Parses p m gs.
Proof.
  induction s as [|x s IH]; intros skip gs; cbn [findall_from];
    [contradiction|].
  assert (Htail : forall k, In gs (findall_from p s k) ->
            exists pre m post, x :: s = pre ++ m ++ post /\ Parses p m gs).
  { intros k H. apply IH in H as (pre & m & post & -> & Hp).
    now exists (x :: pre), m, post. }
  destruct skip as [|k]; [|apply Htail].
  destruct (bt p (x :: s) []) as [[rest groups]|] eqn:E; [|apply Htail].
  intros [<-|H]; [|now apply Htail in H].
  apply bt_sound in E as (m & gs' & Es & Hp & ->).
  rewrite app_nil_r, rev_involutive.
  exists [], m, rest. now split.
Qed.

(** Where there is a match, [findall] finds one. *)
Lemma findall_from_nonempty (p : pat) (s : text) :
  forall k, (k < List.length s)%nat -> bt p (skipn k s) [] <> None ->
            findall_from p s 0 <> [].
Proof.
  induction s as [|x s IH]; intros k Hk Hb; cbn [findall_from].
  - cbn in Hk. lia.
  - destruct (bt p (x :: s) []) as [[rest groups]|] eqn:E; [discriminate|].
    destruct k as [|k]; [now contradiction Hb|].
    apply (IH k); [cbn [List.length] in Hk; lia|assumption].
Qed.

Lemma findall_nonempty_iff (p : pat) (s : text) :
  bt p [] [] = None ->
  findall p s <> [] <->
  exists pre m post gs, s = pre ++ m ++ post /\ Parses p m gs.
Proof.
  intros Hp. unfold findall. split.
  - destruct (findall_from p s 0) as [|gs l] eqn:E; [now intros []|].
    intros _. destruct (findall_from_In p s 0 gs) as (pre & m & post & H);
      [rewrite E; now left|].
    now exists pre, m, post, gs.
  - intros (pre & m & post & gs & -> & H).
    pose proof (bt_complete _ _ _ H post []) as Hb.
    apply (findall_from_nonempty p _ (List.length pre)).
    + rewrite length_app.
      destruct (m ++ post) as [|y l] eqn:E; [congruence|].
      cbn [List.length]. lia.
    + now rewrite skipn_app, skipn_all, Nat.sub_diag.
Qed.

End BacktrackFacts.

Section ShapeFacts.

Lemma not_char_iff (c x : ascii) : not_char c x = true <-> x <> c.
Proof.
  unfold not_char. rewrite negb_true_iff. apply Ascii.eqb_neq.
Qed.

Lemma Forall_not_char (c : ascii) (w : text) :
  Forall (fun x => not_char c x = true) w <-> Forall (fun x => x <> c) w.
Proof.
  split; intros H; induction H; constructor; auto; now apply not_char_iff.
Qed.

Lemma Matches_Seq_iff (r1 r2 : regex) (m : text) :
  Matches (Seq r1 r2) m <->
  exists m1 m2, m = m1 ++ m2 /\ Matches r1 m1 /\ Matches r2 m2.
Proof.
  split; [apply Matches_Seq_inv|].
  intros (m1 & m2 & -> & H1 & H2). now constructor.
Qed.

Lemma Matches_chr_iff (c : ascii) (m : text) :
  Matches (chr c) m <-> m = [c].
Proof.
  unfold chr. split.
  - intros H. apply Matches_Class_inv in H as (x & -> & H).
    apply Ascii.eqb_eq in H. now subst.
  - intros ->. constructor. apply Ascii.eqb_refl.
Qed.

Lemma Matches_literal_iff (l m : text) : Matches (literal l) m <-> m = l.
Proof.
  revert m. induction l as [|c l IH]; intros m; cbn [literal].
  - split; [apply Matches_Eps_inv|intros ->; constructor].
  - rewrite Matches_Seq_iff. split.
    + intros (m1 & m2 & -> & H1 & H2). apply Matches_chr_iff in H1 as ->.
      apply IH in H2 as ->. reflexivity.
    + intros ->. exists [c], l. repeat split;
        [now apply Matches_chr_iff|now apply IH].
Qed.

Lemma Matches_star_class_iff (c : ascii -> bool) (m : text) :
  Matches (Star (Class c)) m <-> Forall (fun x => c x = true) m.
Proof.
  split.
  - intros H. remember (Star (Class c)) as r eqn:Er.
    induction H; try discriminate; [constructor|].
    injection Er as ->. apply Forall_app. split; [|auto].
    apply Matches_Class_inv in H as (x & -> & Hx). now repeat constructor.
  - induction 1 as [|x w Hx Hw IH]; [constructor|].
    exact (MStarApp (Class c) [x] w (MClass c x Hx) IH).
Qed.

Lemma Matches_plus_class_iff (c : ascii -> bool) (m : text) :
  Matches (plus (Class c)) m <-> m <> [] /\ Forall (fun x => c x = true) m.
Proof.
  unfold plus. rewrite Matches_Seq_iff. split.
  - intros (m1 & m2 & -> & H1 & H2).
    apply Matches_Class_inv in H1 as (x & -> & Hx).
    apply Matches_star_class_iff in H2. split; [discriminate|].
    now constructor.
  - intros (Hne & H). destruct m as [|x m]; [contradiction|].
    inversion H; subst. exists [x], m.
    repeat split; [now constructor|now apply Matches_star_class_iff].
Qed.

Lemma Parses_nil_iff (m : text) (gs : list text) :
  Parses [] m gs <-> m = [] /\ gs = [].
Proof.
  split; [intros H; now inversion H|intros (-> & ->); constructor].
Qed.

Lemma Parses_one_iff (c : ascii -> bool) (p : pat) (m : text)
  (gs : list text) :
  Parses (One c :: p) m gs <->
  exists x m', m = x :: m' /\ c x = true /\ Parses p m' gs.
Proof.
  split.
  - intros H. inversion H; subst. eauto.
  - intros (x & m' & -> & Hx & H). now constructor.
Qed.

Lemma Parses_many_iff (c : ascii -> bool) (p : pat) (m : text)
  (gs : list text) :
  Parses (Many c :: p) m gs <->
  exists w m', m = w ++ m' /\ Forall (fun x => c x = true) w /\
               Parses p m' gs.
Proof.
  split.
  - intros H. inversion H; subst. eauto.
  - intros (w & m' & -> & Hw & H). now constructor.
Qed.

Lemma Parses_few_iff (c : ascii -> bool) (p : pat) (m : text)
  (gs : list text) :
  Parses (Few c :: p) m gs <->
  exists w m', m = w ++ m' /\ Forall (fun x => c x = true) w /\
               Parses p m' gs.
Proof.
  split.
  - intros H. inversion H; subst. eauto.
  - intros (w & m' & -> & Hw & H). now constructor.
Qed.

Lemma Parses_cap_iff (c : ascii -> bool) (p : pat) (m : text)
  (gs : list text) :
  Parses (Cap c :: p) m gs <->
  exists w m' gs', m = w ++ m' /\ gs = w :: gs' /\ w <> [] /\
                   Forall (fun x => c x = true) w /\ Parses p m' gs'.
Proof.
  split.
  - intros H. inversion H; subst. exists w, m0, gs0. auto.
  - intros (w & m' & gs' & -> & -> & Hne & Hw & H). now constructor.
Qed.

Lemma Parses_lits_iff (l : text) (p : pat) (m : text) (gs : list text) :
  Parses (lits l ++ p) m gs <-> exists m', m = l ++ m' /\ Parses p m' gs.
Proof.
  revert m. induction l as [|c l IH]; intros m; cbn [lits map app].
  - split; [intros H; now exists m|now intros (m' & -> & H)].
  - rewrite Parses_one_iff. split.
    + intros (x & m1 & -> & Hx & H). apply Ascii.eqb_eq in Hx as <-.
      apply IH in H as (m' & -> & H). now exists m'.
    + intros (m' & -> & H). exists c, (l ++ m').
      repeat split; [apply Ascii.eqb_refl|]. apply IH. now exists m'.
Qed.

Lemma Matches_pattern_iff (m : text) :
  Matches pattern m <-> exists u t, is_comment m u t.
Proof.
  unfold pattern, is_comment, comment_shape, quote_free, brace_free.
  split.
  - intros H.
    apply Matches_Seq_iff in H as (l1 & m1 & -> & Hl1 & H).
    apply Matches_literal_iff in Hl1 as ->.
    apply Matches_Seq_iff in H as (u & m2 & -> & Hu & H).
    apply Matches_plus_class_iff in Hu as (Hu0 & Hu).
    apply Matches_Seq_iff in H as (q1 & m3 & -> & Hq1 & H).
    apply Matches_chr_iff in Hq1 as ->.
    apply Matches_Seq_iff in H as (mid & m4 & -> & Hmid & H).
    apply Matches_star_class_iff in Hmid.
    apply Matches_Seq_iff in H as (l2 & m5 & -> & Hl2 & H).
    apply Matches_literal_iff in Hl2 as ->.
    apply Matches_Seq_iff in H as (t & q2 & -> & Ht & Hq2).
    apply Matches_plus_class_iff in Ht as (Ht0 & Ht).
    apply Matches_chr_iff in Hq2 as ->.
    exists u, t, mid. repeat split; try assumption;
      now apply (Forall_not_char _ _).
  - intros (u & t & mid & -> & Hu0 & Hu & Hmid & Ht0 & Ht).
    apply Forall_not_char in Hu, Hmid, Ht.
    repeat (apply MSeq);
      try (now apply Matches_literal_iff);
      try (now apply Matches_chr_iff);
      try (now apply Matches_plus_class_iff);
      now apply Matches_star_class_iff.
Qed.

Lemma Parses_pattern_iff (m : text) (gs : list text) :
  Parses pattern_atoms m gs <-> exists u t, gs = [u; t] /\ is_comment m u t.
Proof.
  unfold pattern_atoms, is_comment, comment_shape, quote_free, brace_free.
  split.
  - intros H.
    apply Parses_lits_iff in H as (m1 & -> & H). cbn [app] in H.
    apply Parses_cap_iff in H as (u & m2 & gs1 & -> & -> & Hu0 & Hu & H).
    apply Parses_one_iff in H as (x & m3 & -> & Hx & H).
    apply Ascii.eqb_eq in Hx as <-.
    apply Parses_many_iff in H as (mid & m4 & -> & Hmid & H).
    apply Parses_lits_iff in H as (m5 & -> & H). cbn [app] in H.
    apply Parses_cap_iff in H as (t & m6 & gs2 & -> & -> & Ht0 & Ht & H).
    apply Parses_one_iff in H as (y & m7 & -> & Hy & H).
    apply Ascii.eqb_eq in Hy as <-.
    apply Parses_nil_iff in H as (-> & ->).
    exists u, t. split; [reflexivity|]. exists mid.
    repeat split; try assumption; now apply (Forall_not_char _ _).
  - intros (u & t & -> & mid & -> & Hu0 & Hu & Hmid & Ht0 & Ht).
    apply Forall_not_char in Hu, Hmid, Ht.
    apply Parses_lits_iff. eexists. split; [reflexivity|]. cbn [app].
    apply P_cap; [assumption|assumption|].
    apply P_one; [apply Ascii.eqb_refl|].
    apply P_many; [assumption|].
    apply Parses_lits_iff. eexists. split; [reflexivity|]. cbn [app].
    apply P_cap; [assumption|assumption|].
    apply P_one; [apply Ascii.eqb_refl|]. constructor.
Qed.

End ShapeFacts.

Section PatternFacts.

(** The matches of the simple pattern, as pairs. *)
Lemma findall_pattern_In (chunk : text) (u t : text) :
  In (u, t) (map as_pair (findall pattern_atoms chunk)) ->
  exists pre m post, chunk = pre ++ m ++ post /\ is_comment m u t.
Proof.
  intros H. apply in_map_iff in H as (gs & Hp & H).
  apply findall_from_In in H as (pre & m & post & -> & H).
  apply Parses_pattern_iff in H as (u' & t' & -> & H).
  cbn in Hp. injection Hp as -> ->. now exists pre, m, post.
Qed.

Lemma findall_pattern_nonempty (chunk : text) :
  findall pattern_atoms chunk <> [] <->
  exists pre m post u t, chunk = pre ++ m ++ post /\ is_comment m u t.
Proof.
  rewrite findall_nonempty_iff by reflexivity. split.
  - intros (pre & m & post & gs & -> & H).
    apply Parses_pattern_iff in H as (u & t & _ & H).
    now exists pre, m, post, u, t.
  - intros (pre & m & post & u & t & -> & H).
    exists pre, m, post, [u; t]. split; [reflexivity|].
    apply Parses_pattern_iff. now exists u, t.
Qed.

Lemma search_pattern_iff (chunk : text) :
  search pattern chunk = true <->
  exists pre m post u t, chunk = pre ++ m ++ post /\ is_comment m u t.
Proof.
  rewrite search_spec. unfold Found. split.
  - intros (pre & m & post & -> & H).
    apply Matches_pattern_iff in H as (u & t & H).
    now exists pre, m, post, u, t.
  - intros (pre & m & post & u & t & -> & H). exists pre, m, post.
    split; [reflexivity|]. apply Matches_pattern_iff. now exists u, t.
Qed.

Lemma report_chunk_search (chunk : text) :
  (exists r, report_chunk chunk = Some r) <-> search pattern chunk = true.
Proof.
  rewrite search_pattern_iff, <- findall_pattern_nonempty.
  unfold report_chunk.
  destruct (findall pattern_atoms chunk) as [|gs l]; cbn [map].
  - split; [intros (r & H); discriminate|intros H; now contradiction H].
  - destruct (as_pair gs). split; [discriminate|]. intros _. eauto.
Qed.

End PatternFacts.

Section ReportFacts.

Lemma report_loop_read_loop (n : nat) (fuel : nat) :
  forall f,
    read_loop fuel n f =
    option_map (fun o => match o with Some _ => true | None => false end)
      (report_loop fuel n f).
Proof.
  induction fuel as [|fuel IH]; intros f; cbn [read_loop report_loop read].
  - reflexivity.
  - destruct (firstn n f) as [|x c] eqn:E; [reflexivity|].
    destruct (report_chunk (x :: c)) as [r|] eqn:Er.
    + assert (H : search pattern (x :: c) = true)
        by (apply report_chunk_search; eauto).
      now rewrite H.
    + destruct (search pattern (x :: c)) eqn:Es; [|apply IH].
      apply report_chunk_search in Es as (r & Hr). congruence.
Qed.

Lemma In_firstn (A : Type) (n : nat) (l : list A) (x : A) :
  In x (firstn n l) -> In x l.
Proof.
  intros H. rewrite <- (firstn_skipn n l). apply in_or_app. now left.
Qed.

Lemma occurs_at_app (needle pre post : text) :
  occurs_at needle (pre ++ needle ++ post) (len pre).
Proof.
  split.
  - pose proof (len_nonneg pre). rewrite len_app, len_app.
    pose proof (len_nonneg needle). pose proof (len_nonneg post). lia.
  - unfold len. rewrite Nat2Z.id, skipn_app, skipn_all, Nat.sub_diag.
    apply starts_with_iff. now exists post.
Qed.

Lemma find_sub_occurs (s needle : text) (q : Z) :
  occurs_at needle s q ->
  occurs_at needle s (find_sub s needle) /\ find_sub s needle <= q.
Proof.
  intros Hq. destruct (Z.eq_dec (find_sub s needle) (-1)) as [E|E].
  - now apply (find_sub_missing _ _ E) in Hq.
  - destruct (find_sub_found s needle _ eq_refl E) as (Ho & Hmin). auto.
Qed.

End ReportFacts.

(** X8.  The search of [find_comment_pattern.py] always ends, and it
    prints a report exactly when some chunk holds a comment whole: the
    username key with a value that is not empty and has no quote in it,
    then anything without a closing brace, then the text key with such a
    value. *)
Theorem report_file_finds_comments_within_a_chunk (n : nat) (content : text) :
  (exists o, report_file n content = Some o) /\
  ((exists r, report_file n content = Some (Some r)) <->
   exists k pre m post u t,
     chunk n k content = pre ++ m ++ post /\ is_comment m u t).
Proof.
  pose proof (report_loop_read_loop n (S (List.length content)) content) as E.
  fold (search_file n content) in E. fold (report_file n content) in E.
  split.
  - destruct (read_loop_returns n (S (List.length content)) content)
      as (b & Hb); [lia|].
    unfold search_file in E. rewrite Hb in E.
    destruct (report_file n content) as [o|]; [eauto|discriminate].
  - transitivity (search_file n content = Some true).
    + rewrite E. destruct (report_file n content) as [[r|]|]; cbn.
      * split; eauto.
      * split; [intros (r & H)|]; discriminate.
      * split; [intros (r & H)|]; discriminate.
    + rewrite search_file_true. split.
      * intros (k & H). apply search_spec, search_pattern_iff in H
          as (pre & m & post & u & t & H). now exists k, pre, m, post, u, t.
      * intros (k & pre & m & post & u & t & H). exists k.
        apply search_spec, search_pattern_iff. now exists pre, m, post, u, t.
Qed.

(** X9.  A report shows from one to five pairs, each the username and the
    first 100 characters of the text of a comment of the chunk, neither
    empty nor with a quote in it; and the raw context is always printed: it
    is cut around the first place where the first username stands in the
    chunk, 500 characters before it and 1000 from it on, and is at most
    1500 characters long. *)
Theorem report_shows_comments_of_the_chunk (chunk : text) (r : report) :
  report_chunk chunk = Some r ->
  (1 <= List.length (shown r) <= 5)%nat /\
  (forall u t, In (u, t) (shown r) ->
     u <> [] /\ quote_free u /\ t <> [] /\ quote_free t /\ len t <= 100 /\
     exists pre m post t',
       chunk = pre ++ m ++ post /\ is_comment m u t' /\ t = firstn 100 t') /\
  (exists u0 t0 rest ctx,
     shown r = (u0, t0) :: rest /\ raw_context r = Some ctx /\
     occurs_at u0 chunk (find_sub chunk u0) /\
     ctx = slice chunk (Z.max 0 (find_sub chunk u0 - 500))
                       (Z.min (len chunk) (find_sub chunk u0 + 1000)) /\
     len ctx <= 1500).
Proof.
  unfold report_chunk.
  destruct (map as_pair (findall pattern_atoms chunk)) as [|[u0 t0] l] eqn:E;
    [discriminate|].
  remember (map (fun m => (fst m, firstn 100 (snd m)))
              (firstn 5 ((u0, t0) :: l))) as sh eqn:Esh.
  remember (if negb (find_sub chunk u0 =? -1) then _ else None)
    as rc eqn:Erc.
  intros [= <-]. cbn [shown raw_context]. subst sh rc.
  assert (Hin : forall u t, In (u, t) ((u0, t0) :: l) ->
            exists pre m post, chunk = pre ++ m ++ post /\ is_comment m u t).
  { intros u t H. apply findall_pattern_In. now rewrite E. }
  split; [|split].
  - rewrite length_map, length_firstn. cbn [List.length]. lia.
  - intros u t H. apply in_map_iff in H as ([u' t'] & Heq & H).
    cbn [fst snd] in Heq.
    assert (u' = u) by congruence. assert (t = firstn 100 t') by congruence.
    subst u' t. clear Heq. apply In_firstn in H.
    destruct (Hin _ _ H) as (pre & m & post & -> & Hc).
    pose proof Hc as (mid & -> & Hu0 & Hu & Hmid & Ht0 & Ht).
    repeat split; try assumption.
    + destruct t'; [contradiction|discriminate].
    + unfold quote_free in *. rewrite <- (firstn_skipn 100 t') in Ht.
      now apply Forall_app in Ht.
    + unfold len. rewrite length_firstn. lia.
    + exists pre, (comment_shape u mid t'), post, t'. auto.
  - destruct (Hin u0 t0 (or_introl eq_refl))
      as (pre & m & post & Hc & mid & -> & _).
    assert (Ho : occurs_at u0 chunk (len (pre ++ js "'username':'"))).
    { rewrite Hc. unfold comment_shape.
      replace (pre ++ (js "'username':'" ++ u0 ++ [dquote] ++ mid
                 ++ js "'text':'" ++ t0 ++ [dquote]) ++ post)
        with ((pre ++ js "'username':'") ++ u0
              ++ ([dquote] ++ mid ++ js "'text':'" ++ t0 ++ [dquote] ++ post))
        by (now rewrite <- !app_assoc).
      apply occurs_at_app. }
    destruct (find_sub_occurs _ _ _ Ho) as (Hp & _).
    destruct (Z.eqb_spec (find_sub chunk u0) (-1)) as [E1|E1].
    { destruct Hp as ((Hp0 & _) & _). lia. }
    cbn [negb]. eexists u0, (firstn 100 t0), _, _.
    split; [reflexivity|]. split; [reflexivity|].
    split; [assumption|]. split; [reflexivity|].
    destruct Hp as ((Hp0 & Hp1) & _).
    etransitivity; [apply len_slice_le|]; lia.
Qed.

Lemma report_shows_comments_of_the_chunk_witness :
  (1 <= List.length (shown comment_report) <= 5)%nat.
Proof.
  assert (H : report_chunk comment = Some comment_report)
    by (vm_compute; reflexivity).
  destruct (report_shows_comments_of_the_chunk comment comment_report H)
    as (H1 & _).
  exact H1.
Defined.

(** * Properties of [find_comments_carefully.py] *)

Import FindCommentsCarefully.

Section FlexibleFacts.

Lemma Parses_flexible_iff (m : text) (gs : list text) :
  Parses flexible_pattern m gs <->
  exists u t, gs = [u; t] /\ is_flexible_comment m u t.
Proof.
  unfold flexible_pattern, is_flexible_comment, flexible_shape, blank,
    quote_free, brace_free.
  split.
  - intros H.
    apply Parses_lits_iff in H as (m1 & -> & H). cbn [app] in H.
    apply Parses_many_iff in H as (w1 & m2 & -> & Hw1 & H).
    apply Parses_one_iff in H as (x1 & m3 & -> & Hx1 & H).
    apply Ascii.eqb_eq in Hx1 as <-.
    apply Parses_many_iff in H as (w2 & m4 & -> & Hw2 & H).
    apply Parses_one_iff in H as (x2 & m5 & -> & Hx2 & H).
    apply Ascii.eqb_eq in Hx2 as <-.
    apply Parses_cap_iff in H as (u & m6 & gs1 & -> & -> & Hu0 & Hu & H).
    apply Parses_one_iff in H as (x3 & m7 & -> & Hx3 & H).
    apply Ascii.eqb_eq in Hx3 as <-.
    apply Parses_few_iff in H as (mid & m8 & -> & Hmid & H).
    apply Parses_lits_iff in H as (m9 & -> & H). cbn [app] in H.
    apply Parses_many_iff in H as (w3 & m10 & -> & Hw3 & H).
    apply Parses_one_iff in H as (x4 & m11 & -> & Hx4 & H).
    apply Ascii.eqb_eq in Hx4 as <-.
    apply Parses_many_iff in H as (w4 & m12 & -> & Hw4 & H).
    apply Parses_one_iff in H as (x5 & m13 & -> & Hx5 & H).
    apply Ascii.eqb_eq in Hx5 as <-.
    apply Parses_cap_iff in H as (t & m14 & gs2 & -> & -> & Ht0 & Ht & H).
    apply Parses_one_iff in H as (x6 & m15 & -> & Hx6 & H).
    apply Ascii.eqb_eq in Hx6 as <-.
    apply Parses_nil_iff in H as (-> & ->).
    exists u, t. split; [reflexivity|]. exists w1, w2, mid, w3, w4.
    repeat split; try assumption; now apply (Forall_not_char _ _).
  - intros (u & t & -> & w1 & w2 & mid & w3 & w4 & -> & Hw1 & Hw2 & Hw3
            & Hw4 & Hu0 & Hu & Hmid & Ht0 & Ht).
    apply Forall_not_char in Hu, Hmid, Ht.
    apply Parses_lits_iff. eexists. split; [reflexivity|]. cbn [app].
    apply P_many; [assumption|]. apply P_one; [apply Ascii.eqb_refl|].
    apply P_many; [assumption|]. apply P_one; [apply Ascii.eqb_refl|].
    apply P_cap; [assumption|assumption|].
    apply P_one; [apply Ascii.eqb_refl|].
    apply P_few; [assumption|].
    apply Parses_lits_iff. eexists. split; [reflexivity|]. cbn [app].
    apply P_many; [assumption|]. apply P_one; [apply Ascii.eqb_refl|].
    apply P_many; [assumption|]. apply P_one; [apply Ascii.eqb_refl|].
    apply P_cap; [assumption|assumption|].
    apply P_one; [apply Ascii.eqb_refl|]. constructor.
Qed.

Lemma comment_is_flexible (m u t : text) :
  is_comment m u t -> is_flexible_comment m u t.
Proof.
  intros (mid & -> & H). exists [], [], mid, [], [].
  split; [reflexivity|]. unfold blank. repeat split; try constructor; tauto.
Qed.

Lemma findall_flexible_In (chunk : text) (u t : text) :
  In (u, t) (map as_pair (findall flexible_pattern chunk)) ->
  exists pre m post, chunk = pre ++ m ++ post /\ is_flexible_comment m u t.
Proof.
  intros H. apply in_map_iff in H as (gs & Hp & H).
  apply findall_from_In in H as (pre & m & post & -> & H).
  apply Parses_flexible_iff in H as (u' & t' & -> & H).
  cbn in Hp. injection Hp as -> ->. now exists pre, m, post.
Qed.

Lemma findall_flexible_nonempty (chunk : text) :
  findall flexible_pattern chunk <> [] <->
  exists pre m post u t,
    chunk = pre ++ m ++ post /\ is_flexible_comment m u t.
Proof.
  rewrite findall_nonempty_iff by reflexivity. split.
  - intros (pre & m & post & gs & -> & H).
    apply Parses_flexible_iff in H as (u & t & _ & H).
    now exists pre, m, post, u, t.
  - intros (pre & m & post & u & t & -> & H).
    exists pre, m, post, [u; t]. split; [reflexivity|].
    apply Parses_flexible_iff. now exists u, t.
Qed.

End FlexibleFacts.

Ltac nothing_found :=
  intros [= <-]; repeat split; intros;
  try reflexivity; try (cbn; lia);
  try (now match goal with H : In _ [] |- _ => destruct H end).

Section CarefullyFacts.

Lemma report_matches_spec (chunk : text) (ms : list (text * text)) :
  forall c,
    fst (report_matches chunk c ms) = (c + List.length ms)%nat /\
    map number (snd (report_matches chunk c ms)) = List.seq (S c) (List.length ms) /\
    forall e, In e (snd (report_matches chunk c ms)) ->
              exists k m, In m ms /\ e = entry_of chunk k m.
Proof.
  induction ms as [|m ms IH]; intros c; cbn [report_matches].
  - cbn. repeat split; [lia|contradiction].
  - destruct (IH (S c)) as (H1 & H2 & H3).
    destruct (report_matches chunk (S c) ms) as [n es]. cbn [fst snd] in *.
    repeat split.
    + cbn [List.length]. lia.
    + cbn [map List.length List.seq]. f_equal; [|assumption].
      unfold entry_of. now destruct m.
    + intros e [<-|He]; [exists (S c), m; split; [now left|reflexivity]|].
      destruct (H3 e He) as (k & m' & Hm & ->).
      exists k, m'. split; [now right|reflexivity].
Qed.

Lemma search_loop_spec (n : nat) (fuel : nat) :
  forall f c es,
    search_loop fuel n f c = Some es ->
    ((c < 5)%nat -> (c + List.length es <= 9)%nat) /\
    ((5 <= c)%nat -> es = []) /\
    map number es = List.seq (S c) (List.length es) /\
    forall e, In e es ->
      exists j k m,
        In m (map as_pair (findall flexible_pattern (chunk n j f))) /\
        e = entry_of (chunk n j f) k m.
Proof.
  induction fuel as [|fuel IH]; intros f c es; cbn [search_loop read];
    [discriminate|].
  destruct (Nat.ltb_spec c 5) as [Hc|Hc].
  2:{ nothing_found. }
  destruct (firstn n f) as [|x ch] eqn:E.
  { nothing_found. }
  rewrite <- E. change (firstn n f) with (chunk n 0 f).
  set (ms := firstn 5 (map as_pair (findall flexible_pattern (chunk n 0 f)))).
  destruct (report_matches_spec (chunk n 0 f) ms c) as (H1 & H2 & H3).
  assert (Hms : (List.length ms <= 5)%nat)
    by (unfold ms; rewrite length_firstn; lia).
  destruct (report_matches (chunk n 0 f) c ms) as [c' entries].
  cbn [fst snd] in *. subst c'.
  assert (Hlen : List.length entries = List.length ms).
  { rewrite <- (length_map number), H2. apply length_seq. }
  assert (Hhere : forall e, In e entries ->
            exists j k m,
              In m (map as_pair (findall flexible_pattern (chunk n j f))) /\
              e = entry_of (chunk n j f) k m).
  { intros e He. destruct (H3 e He) as (k & m & Hm & ->).
    exists 0%nat, k, m. split; [|reflexivity].
    unfold ms in Hm. now apply In_firstn in Hm. }
  destruct (Nat.leb_spec 5 (c + List.length ms)) as [Hfive|Hfive].
  - intros [= <-]. repeat split; try lia; [now rewrite Hlen in *|assumption].
  - destruct (search_loop fuel n (skipn n f) (c + List.length ms))
      as [es'|] eqn:Eloop; [|discriminate].
    intros [= <-]. apply IH in Eloop as (I1 & I2 & I3 & I4).
    rewrite length_app, Hlen. repeat split; try lia.
    + rewrite map_app, H2, I3, <- Hlen.
      replace (S (c + List.length entries))
        with (S c + List.length entries)%nat by lia.
      now rewrite <- List.seq_app.
    + intros e He. apply in_app_or in He as [He|He]; [auto|].
      destruct (I4 e He) as (j & k & m & Hm & ->).
      exists (S j), k, m. now rewrite chunk_succ.
Qed.

Lemma search_loop_returns (n : nat) (fuel : nat) :
  forall f c, (List.length f < fuel)%nat ->
              exists es, search_loop fuel n f c = Some es.
Proof.
  induction fuel as [|fuel IH]; intros f c Hf; [lia|].
  cbn [search_loop read].
  destruct (c <? 5)%nat; [|now exists []].
  destruct (firstn n f) as [|x ch] eqn:E; [now exists []|].
  destruct (report_matches (x :: ch) c _) as [c' entries].
  destruct (5 <=? c')%nat; [now exists entries|].
  destruct (IH (skipn n f) c') as (es & ->).
  - rewrite length_skipn. destruct n; [discriminate|].
    destruct f; [discriminate|]. cbn [List.length] in *. lia.
  - now exists (entries ++ es).
Qed.

End CarefullyFacts.


Section ContextFacts.

Lemma len_slice_min (s : text) (a b : Z) :
  0 <= a <= len s -> a <= b ->
  len (slice s a b) = Z.min (b - a) (len s - a).
Proof.
  unfold slice, len. intros Ha Hab.
  rewrite length_firstn, length_skipn. lia.
Qed.

Lemma char_at_slice (s : text) (a b k : Z) :
  0 <= a -> 0 <= k < len (slice s a b) ->
  char_at (slice s a b) k = char_at s (a + k).
Proof.
  intros Ha Hk. unfold char_at.
  destruct (Z.ltb_spec k 0); [lia|]. destruct (Z.ltb_spec (a + k) 0); [lia|].
  unfold slice, len in *. rewrite length_firstn in Hk.
  rewrite nth_error_firstn.
  destruct (Nat.ltb_spec (Z.to_nat k) (Z.to_nat (b - a))); [|lia].
  rewrite nth_error_skipn. f_equal. lia.
Qed.

End ContextFacts.

(** X11.  The context line of a comment is printed exactly when the
    username field, written without blanks, stands somewhere in the chunk.
    With [pos] the first offset where it stands, the line is the chunk from
    offset [max 0 (pos - 200)] on, 100 characters of it or what is left of
    the chunk: character for character the chunk from there.  So when
    [pos] is 200 or more the line is the 100 characters from [pos - 200] to
    [pos - 100], when [pos] is below 200 it is the first 100 characters of
    the chunk, and when [pos] is 100 or more the line stops before the
    field. *)
Theorem context_line_stands_before_the_key (chunk : text) (count : nat)
  (u t : text) :
  match context_line (entry_of chunk count (u, t)) with
  | Some ctx =>
      let key := js "'username':'" ++ u ++ [dquote] in
      let pos := find_sub chunk key in
      let start := Z.max 0 (pos - 200) in
      occurs_at key chunk pos /\
      (forall q, occurs_at key chunk q -> pos <= q) /\
      ctx = slice chunk start (start + 100) /\
      len ctx = Z.min 100 (len chunk - start) /\
      (forall k, 0 <= k < len ctx ->
                 char_at ctx k = char_at chunk (start + k)) /\
      (200 <= pos -> ctx = slice chunk (pos - 200) (pos - 100) /\
                     len ctx = 100) /\
      (pos < 200 -> ctx = slice chunk 0 100) /\
      (100 <= pos -> start + len ctx <= start + 100 <= pos)
  | None =>
      forall q, ~ occurs_at (js "'username':'" ++ u ++ [dquote]) chunk q
  end.
Proof.
  unfold entry_of. cbn [context_line].
  set (key := js "'username':'" ++ u ++ [dquote]).
  destruct (Z.eqb_spec (find_sub chunk key) (-1)) as [E|E]; cbn [negb].
  - now apply find_sub_missing.
  - cbv zeta. destruct (find_sub_found chunk key _ eq_refl E) as (Ho & Hmin).
    pose proof Ho as ((Hp0 & Hp1) & _).
    set (pos := find_sub chunk key) in *.
    assert (Hl : len (slice chunk (Z.max 0 (pos - 200))
                        (Z.max 0 (pos - 200) + 100))
                 = Z.min 100 (len chunk - Z.max 0 (pos - 200))).
    { rewrite len_slice_min by lia. f_equal. lia. }
    split; [assumption|]. split; [assumption|].
    split; [reflexivity|]. split; [assumption|].
    split; [|split; [|split]].
    + intros k Hk. apply char_at_slice; lia.
    + intros H. split; [f_equal; lia|]. rewrite Hl. lia.
    + intros H. f_equal; lia.
    + intros H. rewrite Hl. lia.
Qed.

(** X12.  Every comment printed comes from a comment that one chunk holds
    whole, blanks allowed around its colons: the username printed is not
    empty and has no quote in it, and the text printed is the text of the
    comment, cut to 200 characters and three dots when it is longer. *)
Theorem entries_come_from_comments (n : nat) (content : text)
  (es : list entry) :
  search_file n content = Some es ->
  forall e, In e es ->
    username e <> [] /\ quote_free (username e) /\
    len (text_shown e) <= 203 /\
    exists j pre m post t,
      chunk n j content = pre ++ m ++ post /\
      is_flexible_comment m (username e) t /\
      text_shown e = show_text t.
Proof.
  intros H e He. apply search_loop_spec in H as (_ & _ & _ & H).
  destruct (H e He) as (j & k & [u t] & Hm & ->).
  apply findall_flexible_In in Hm as (pre & m & post & Hc & Hf).
  pose proof Hf as (w1 & w2 & mid & w3 & w4 & _ & _ & _ & _ & _ & Hu0 & Hu & _).
  cbn [entry_of username text_shown]. repeat split; try assumption.
  - unfold show_text. destruct (Z.gtb_spec (len t) 200) as [Hl|Hl]; [|lia].
    rewrite len_app. unfold len at 1. rewrite length_firstn.
    change (len (lit "...")) with 3. lia.
  - now exists j, pre, m, post, t.
Qed.

Lemma entries_come_from_comments_witness :
  username (mkEntry 1 (lit "ann") (lit "hi") None) <> [] /\
  quote_free (username (mkEntry 1 (lit "ann") (lit "hi") None)) /\
  len (text_shown (mkEntry 1 (lit "ann") (lit "hi") None)) <= 203 /\
  exists j pre m post t,
    chunk 100 j spaced_comment = pre ++ m ++ post /\
    is_flexible_comment m (username (mkEntry 1 (lit "ann") (lit "hi") None)) t
    /\ text_shown (mkEntry 1 (lit "ann") (lit "hi") None) = show_text t.
Proof.
  apply (entries_come_from_comments 100 spaced_comment
           [mkEntry 1 (lit "ann") (lit "hi") None]).
  - vm_compute. reflexivity.
  - now left.
Defined.

Section CrossFacts.

Lemma firstn_plus (A : Type) (n m : nat) (l : list A) :
  firstn (n + m) l = firstn n l ++ firstn m (skipn n l).
Proof.
  revert l. induction n as [|n IH]; intros l; [reflexivity|].
  destruct l as [|x l]; cbn [Nat.add firstn skipn app].
  - now rewrite firstn_nil.
  - now rewrite IH.
Qed.

Lemma chunk_double (n j : nat) (f : text) :
  chunk (n + n) j f = chunk n (2 * j) f ++ chunk n (2 * j + 1) f.
Proof.
  unfold chunk. rewrite firstn_plus, skipn_skipn.
  f_equal; f_equal; f_equal; lia.
Qed.

Lemma chunk_in_double (n k : nat) (f : text) :
  exists a b, chunk (n + n) (k / 2) f = a ++ chunk n k f ++ b.
Proof.
  rewrite chunk_double.
  pose proof (Nat.div_mod_eq k 2) as Hk.
  pose proof (Nat.mod_upper_bound k 2 ltac:(lia)) as Hm.
  destruct (k mod 2)%nat as [|[|r]] eqn:E; [| |lia].
  - exists [], (chunk n (2 * (k / 2) + 1) f).
    replace (2 * (k / 2))%nat with k by lia. reflexivity.
  - exists (chunk n (2 * (k / 2)) f), [].
    replace (2 * (k / 2) + 1)%nat with k by lia. now rewrite app_nil_r.
Qed.

Lemma search_loop_finds (n : nat) (fuel : nat) :
  forall f c es j,
    FindCommentsCarefully.search_loop fuel n f c = Some es ->
    (c < 5)%nat -> (j < fuel)%nat ->
    findall flexible_pattern (chunk n j f) <> [] ->
    es <> [].
Proof.
  induction fuel as [|fuel IH]; intros f c es j; [discriminate|].
  cbn [FindCommentsCarefully.search_loop read]. intros H Hc Hj Hfound.
  destruct (Nat.ltb_spec c 5) as [_|]; [|lia].
  destruct (firstn n f) as [|x ch] eqn:E.
  { rewrite (chunk_nil _ _ E) in Hfound. now contradiction Hfound. }
  rewrite <- E in H. change (firstn n f) with (chunk n 0 f) in H.
  set (ms := firstn 5 (map as_pair (findall flexible_pattern (chunk n 0 f))))
    in H.
  destruct (report_matches_spec (chunk n 0 f) ms c) as (H1 & H2 & _).
  destruct (report_matches (chunk n 0 f) c ms) as [c' entries].
  cbn [fst snd] in *. subst c'.
  assert (Hlen : List.length entries = List.length ms).
  { rewrite <- (length_map number), H2. apply length_seq. }
  destruct entries as [|e entries].
  - cbn [List.length] in Hlen.
    destruct (Nat.leb_spec 5 (c + List.length ms)); [lia|].
    destruct (FindCommentsCarefully.search_loop fuel n (skipn n f)
                (c + List.length ms)) as [es'|] eqn:El; [|discriminate].
    injection H as <-. cbn [app].
    destruct j as [|j].
    + exfalso. unfold ms in Hlen.
      destruct (findall flexible_pattern (chunk n 0 f));
        [now contradiction Hfound|discriminate].
    + apply (IH _ _ _ j El); [lia|lia|]. now rewrite <- chunk_succ.
  - destruct (5 <=? c + List.length ms)%nat; [injection H as <-; discriminate|].
    destruct (FindCommentsCarefully.search_loop fuel n (skipn n f) _);
      [|discriminate].
    injection H as <-. discriminate.
Qed.

End CrossFacts.

(** X13.  On the same text, whenever [find_comment_pattern.py] reports
    comment patterns, [find_comments_carefully.py] prints at least one
    comment: its pattern accepts every comment of the simpler pattern, and
    each of its chunks is two chunks of the other script. *)
Theorem careful_search_finds_what_the_simple_search_finds (content : text) :
  FindCommentPattern.search_file FindCommentPattern.chunk_size content
  = Some true ->
  exists es,
    FindCommentsCarefully.search_file FindCommentsCarefully.chunk_size content
    = Some es /\ es <> [].
Proof.
  intros H. apply search_file_true in H as (k & H).
  apply search_spec, search_pattern_iff in H
    as (pre & m & post & u & t & Hc & Hm).
  destruct (search_loop_returns FindCommentsCarefully.chunk_size
              (S (List.length content)) content 0) as (es & He); [lia|].
  exists es. split; [exact He|].
  destruct (chunk_in_double FindCommentPattern.chunk_size k content)
    as (a & b & Hd).
  change (FindCommentPattern.chunk_size + FindCommentPattern.chunk_size)%nat
    with FindCommentsCarefully.chunk_size in Hd.
  assert (Hf : findall flexible_pattern
                 (chunk FindCommentsCarefully.chunk_size (k / 2) content)
               <> []).
  { apply findall_flexible_nonempty.
    exists (a ++ pre), m, (post ++ b), u, t.
    split; [|now apply comment_is_flexible].
    rewrite Hd, Hc. now rewrite <- !app_assoc. }
  apply (search_loop_finds _ _ _ _ _ (k / 2)%nat He); [lia| |assumption].
  assert (Hne : chunk FindCommentsCarefully.chunk_size (k / 2) content <> []).
  { intros E. rewrite E in Hf. now contradiction Hf. }
  apply chunk_index in Hne. lia.
Qed.

Lemma careful_search_finds_what_the_simple_search_finds_witness :
  exists es,
    FindCommentsCarefully.search_file FindCommentsCarefully.chunk_size comment
    = Some es /\ es <> [].
Proof.
  apply (careful_search_finds_what_the_simple_search_finds comment).
  vm_compute. reflexivity.
Defined.
